(** * The [permutation] class of core_algebra: a shallow embedding

    Source: [src/permutation.py].  Python integers are modelled as [Z],
    tuples and lists as [list], strings as [string].  Exceptions are an
    explicit outcome; the two [while] loops of [_getcycles] and the one of
    [order] take a fuel argument, and the theorems below show that enough
    fuel always yields a result on well-formed permutations. *)

From Stdlib Require Import String Ascii DecimalString DecimalPos DecimalZ.
From Stdlib Require Import ZArith List Lia Bool Arith Permutation FinFun.
From mathcomp Require ssreflect ssrfun ssrbool eqtype ssrnat seq choice fintype
  finfun bigop finset fingroup perm.
Import ListNotations.
Local Open Scope Z_scope.

(** ** Outcomes of a Python computation *)

Inductive exn : Type :=
| ValueError (msg : string)
| IndexError (msg : string).

Inductive outcome (A : Type) : Type :=
| Ok (a : A)
| Raise (e : exn)
| OutOfFuel.

Arguments Ok {A} a.
Arguments Raise {A} e.
Arguments OutOfFuel {A}.

Definition bind {A B : Type} (m : outcome A) (k : A -> outcome B) : outcome B :=
  match m with
  | Ok a => k a
  | Raise e => Raise e
  | OutOfFuel => OutOfFuel
  end.

Notation "x <- m ;; k" := (bind m (fun x => k))
  (at level 61, m at next level, right associativity).
Notation "' pat <- m ;; k" := (bind m (fun x => match x with pat => k end))
  (at level 61, pat pattern, m at next level, right associativity).

Fixpoint mapM {A B : Type} (f : A -> outcome B) (l : list A) : outcome (list B) :=
  match l with
  | [] => Ok []
  | a :: l' => b <- f a ;; bs <- mapM f l' ;; Ok (b :: bs)
  end.

(** A computation that takes fuel evaluates to [v] when every large enough
    amount of fuel makes it return [v]. *)
Definition evaluates {A : Type} (m : nat -> outcome A) (v : A) : Prop :=
  exists fuel0 : nat, forall fuel : nat, (fuel0 <= fuel)%nat -> m fuel = Ok v.

Definition raises {A : Type} (m : nat -> outcome A) (e : exn) : Prop :=
  exists fuel0 : nat, forall fuel : nat, (fuel0 <= fuel)%nat -> m fuel = Raise e.

(** ** Python built-ins used by the class *)

(** [len(l)] *)
Definition len {A : Type} (l : list A) : Z := Z.of_nat (length l).

(** Position designated by a Python index: negative indices count from the
    end, anything outside [-len, len) designates no position. *)
Definition norm_index {A : Type} (l : list A) (k : Z) : option nat :=
  if (0 <=? k) && (k <? len l) then Some (Z.to_nat k)
  else if (- len l <=? k) && (k <? 0) then Some (Z.to_nat (k + len l))
  else None.

(** [l[k]] *)
Definition getitem {A : Type} (l : list A) (k : Z) : outcome A :=
  match norm_index l k with
  | Some i =>
      match nth_error l i with
      | Some x => Ok x
      | None => Raise (IndexError "list index out of range")
      end
  | None => Raise (IndexError "list index out of range")
  end.

Fixpoint set_nth {A : Type} (l : list A) (i : nat) (v : A) : list A :=
  match l, i with
  | [], _ => []
  | _ :: l', O => v :: l'
  | a :: l', S i' => a :: set_nth l' i' v
  end.

(** [l[k] = v] *)
Definition setitem {A : Type} (l : list A) (k : Z) (v : A) : outcome (list A) :=
  match norm_index l k with
  | Some i => Ok (set_nth l i v)
  | None => Raise (IndexError "list assignment index out of range")
  end.

(** [l.index(x)]: position of the first occurrence; [None] stands for the
    [ValueError] that Python raises when [x] is absent. *)
Fixpoint index {A : Type} (eqb : A -> A -> bool) (l : list A) (x : A) : option nat :=
  match l with
  | [] => None
  | y :: l' => if eqb y x then Some O else option_map S (index eqb l' x)
  end.

(** [max(l)] *)
Definition py_max (l : list Z) : outcome Z :=
  match l with
  | [] => Raise (ValueError "max() arg is an empty sequence")
  | x :: l' => Ok (fold_left Z.max l' x)
  end.

(** [xrange(a, b)] *)
Definition xrange (a b : Z) : list Z :=
  map (fun k => a + Z.of_nat k) (seq 0 (Z.to_nat (b - a))).

(** [any(l)] *)
Definition any (l : list bool) : bool := existsb (fun b => b) l.

(** [str(x)] for an integer *)
Definition str (x : Z) : string := NilZero.string_of_int (Z.to_int x).

(** [sep.join(parts)] *)
Definition join (sep : string) (parts : list string) : string :=
  String.concat sep parts.

(** [l * k] for a list [l] and an integer [k] *)
Definition list_mul {A : Type} (l : list A) (k : Z) : list A :=
  concat (repeat l (Z.to_nat k)).

(** [str(tuple(cycle))] *)
Definition str_tuple (cycle : list Z) : string :=
  match cycle with
  | [] => "()"
  | [x] => "(" ++ str x ++ ",)"
  | _ => "(" ++ join ", " (map str cycle) ++ ")"
  end%string.

(** ** The class *)

Record permutation : Type := { _lookup : list Z }.

(** One pass of the inner [for] of [__init__]:
    [result = cycle[cycle.index(result) - len(cycle) + 1]], the
    [ValueError] of [index] being swallowed. *)
Definition cycle_step (cycle : list Z) (result : Z) : outcome Z :=
  match index Z.eqb cycle result with
  | Some i => getitem cycle (Z.of_nat i - len cycle + 1)
  | None => Ok result
  end.

(** The inner [for] over an already reversed list of cycles. *)
Fixpoint apply_cycles (cycles : list (list Z)) (result : Z) : outcome Z :=
  match cycles with
  | [] => Ok result
  | cycle :: rest => r <- cycle_step cycle result ;; apply_cycles rest r
  end.

(** The outer [for i in xrange(1, size + 1)]. *)
Fixpoint init_loop (cycles : list (list Z)) (points : list Z) (lookup : list Z)
  : outcome (list Z) :=
  match points with
  | [] => Ok lookup
  | i :: rest =>
      result <- apply_cycles (rev cycles) i ;;
      lookup' <- setitem lookup (i - 1) result ;;
      init_loop cycles rest lookup'
  end.

Definition __init__ (cycles : list (list Z)) : outcome permutation :=
  maxes <- mapM py_max cycles ;;
  size <- py_max maxes ;;
  lookup <- init_loop cycles (xrange 1 (size + 1)) (repeat 0 (Z.to_nat size)) ;;
  Ok {| _lookup := lookup |}.

(** The methods build their results with [perm], the name under which the
    class is used throughout its docstrings. *)
Definition perm := __init__.

Definition __len__ (self : permutation) : Z := len (_lookup self).

Definition __call__ (self : permutation) (x : Z) : outcome Z :=
  match getitem (_lookup self) (x - 1) with
  | Raise (IndexError _) =>
      Raise (IndexError (str x ++ " not in permutation. Must be between 1 and "
                         ++ str (__len__ self) ++ ".")%string)
  | r => r
  end.

(** The inner [while next_element != start] of [_getcycles]. *)
Fixpoint follow (fuel : nat) (self : permutation) (start : Z)
    (cycle : list Z) (not_done : list bool) (next_element : Z)
  : outcome (list Z * list bool) :=
  match fuel with
  | O => OutOfFuel
  | S fuel' =>
      if negb (next_element =? start) then
        not_done' <- setitem not_done (next_element - 1) false ;;
        next' <- __call__ self next_element ;;
        follow fuel' self start (cycle ++ [next_element]) not_done' next'
      else Ok (cycle, not_done)
  end.

(** [not simplify or len(cycle) > 1 or cycle[0] == len(self)] *)
Definition keep_cycle (self : permutation) (simplify : bool) (cycle : list Z)
  : outcome bool :=
  if negb simplify || (1 <? len cycle) then Ok true
  else c0 <- getitem cycle 0 ;; Ok (c0 =? __len__ self).

(** The outer [while any(not_done)] of [_getcycles]. *)
Fixpoint getcycles_loop (fuel : nat) (self : permutation) (simplify : bool)
    (not_done : list bool) (cycles : list (list Z)) : outcome (list (list Z)) :=
  match fuel with
  | O => OutOfFuel
  | S fuel' =>
      if any not_done then
        match index Bool.eqb not_done true with
        | None => Raise (ValueError "True is not in list")
        | Some i =>
            let start := Z.of_nat i + 1 in
            not_done1 <- setitem not_done (start - 1) false ;;
            next_element <- __call__ self start ;;
            '(cycle, not_done2) <- follow fuel' self start [start] not_done1 next_element ;;
            keep <- keep_cycle self simplify cycle ;;
            getcycles_loop fuel' self simplify not_done2
              (if keep then cycles ++ [cycle] else cycles)
        end
      else Ok cycles
  end.

Definition _getcycles (fuel : nat) (self : permutation) (simplify : bool)
  : outcome (list (list Z)) :=
  getcycles_loop fuel self simplify (repeat true (length (_lookup self))) [].

Definition __mul__ (fuel : nat) (self other : permutation) : outcome permutation :=
  cs1 <- _getcycles fuel self true ;;
  cs2 <- _getcycles fuel other true ;;
  perm (cs1 ++ cs2).

Definition __pow__ (fuel : nat) (self : permutation) (idx : Z) : outcome permutation :=
  cs <- _getcycles fuel self true ;;
  perm (list_mul cs idx).

Definition render_cycle (cycle : list Z) : string :=
  join (join " " (map str cycle)) ["("; ")"]%string.

Definition __str__ (fuel : nat) (self : permutation) : outcome string :=
  cs <- _getcycles fuel self true ;;
  Ok (join "" (map render_cycle cs)).

Definition __repr__ (fuel : nat) (self : permutation) : outcome string :=
  cs <- _getcycles fuel self true ;;
  Ok ("perm(" ++ join ", " (map str_tuple cs) ++ ")")%string.

Definition __eq__ (fuel : nat) (self other : permutation) : outcome bool :=
  s1 <- __str__ fuel self ;;
  s2 <- __str__ fuel other ;;
  Ok (String.eqb s1 s2).

Definition __ne__ (fuel : nat) (self other : permutation) : outcome bool :=
  b <- __eq__ fuel self other ;; Ok (negb b).

(** The [while result != self] of [order]. *)
Fixpoint order_loop (fuel : nat) (self result : permutation) (order : Z) : outcome Z :=
  match fuel with
  | O => OutOfFuel
  | S fuel' =>
      ne <- __ne__ fuel' result self ;;
      if ne then
        result' <- __mul__ fuel' result self ;;
        order_loop fuel' self result' (order + 1)
      else Ok order
  end.

Definition order (fuel : nat) (self : permutation) : outcome Z :=
  result <- __mul__ fuel self self ;;
  order_loop fuel self result 1.

Definition sgn (fuel : nat) (self : permutation) : outcome Z :=
  cs <- _getcycles fuel self true ;;
  let even_cycles := filter (fun x => len x mod 2 =? 0) cs in
  Ok (-2 * (len even_cycles mod 2) + 1).

(** ** Total readings of the fallible steps *)

(** Position that follows [i] cyclically in a sequence of [n] elements. *)
Definition succ_pos (n i : nat) : nat := (S i) mod n.

(** The cyclic successor of [x] in [cycle]: the element one position after
    the first occurrence of [x], wrapping around at the end; a point that
    does not occur in [cycle] is left unchanged. *)
Definition cyclic_successor (cycle : list Z) (x : Z) : Z :=
  match index Z.eqb cycle x with
  | Some i => nth (succ_pos (length cycle) i) cycle x
  | None => x
  end.

(** The cycles applied rightmost first, leftmost last. *)
Definition compose_cycles (cycles : list (list Z)) (x : Z) : Z :=
  fold_right cyclic_successor x cycles.

(** [m] is the maximum of the integers of [l]. *)
Definition is_max (m : Z) (l : list Z) : Prop :=
  In m l /\ forall y, In y l -> y <= m.

(** The image of [x] under the permutation, every integer outside
    [1 .. len(self)] being left where it is. *)
Definition image (self : permutation) (x : Z) : Z :=
  if (1 <=? x) && (x <=? __len__ self)
  then nth (Z.to_nat (x - 1)) (_lookup self) 0
  else x.

(** ** Well-formed permutations *)

Fixpoint nodupb (l : list Z) : bool :=
  match l with
  | [] => true
  | x :: l' => negb (existsb (Z.eqb x) l') && nodupb l'
  end.

(** The data-model invariant: the table is not empty and holds each of
    [1 .. n] once. *)
Definition well_formed (self : permutation) : bool :=
  (1 <=? __len__ self)
  && nodupb (_lookup self)
  && forallb (fun x => (1 <=? x) && (x <=? __len__ self)) (_lookup self).

(** Input of the constructor as the contract describes it: one or more
    cycles, each a non-empty sequence of distinct positive integers. *)
Definition valid_cycle (cycle : list Z) : bool :=
  negb (len cycle =? 0) && nodupb cycle && forallb (fun x => 1 <=? x) cycle.

Definition valid_cycles (cycles : list (list Z)) : bool :=
  negb (len cycles =? 0) && forallb valid_cycle cycles.

(** [max(l)] as a total function ([0] on the empty list, where Python
    raises). *)
Definition maximum (l : list Z) : Z :=
  match l with
  | [] => 0
  | x :: l' => fold_left Z.max l' x
  end.

(** [max(max(cycle) for cycle in cycles)] as a total function. *)
Definition size_of (cycles : list (list Z)) : Z :=
  maximum (map maximum cycles).

(** The table that [__init__] builds for [cycles]. *)
Definition table_of (cycles : list (list Z)) : list Z :=
  map (compose_cycles cycles) (xrange 1 (size_of cycles + 1)).


(** The [j]-th point met when following the permutation from [x]. *)
Definition orbit (self : permutation) (x : Z) (j : nat) : Z :=
  Nat.iter j (image self) x.

(** The first [k] points met from [x]: [x, self(x), self(self(x)), ...]. *)
Definition orbit_list (self : permutation) (x : Z) (k : nat) : list Z :=
  map (orbit self x) (seq 0 k).

(** [not_done] is false exactly at the points of [done]. *)
Definition marks (self : permutation) (not_done : list bool) (done : list Z) : Prop :=
  length not_done = length (_lookup self) /\
  forall i : nat, (i < length (_lookup self))%nat ->
    (nth i not_done true = false <-> In (Z.of_nat i + 1) done).

Definition in_range (self : permutation) (x : Z) : Prop :=
  1 <= x <= __len__ self.


(** [c] lists a cycle of the permutation: consecutive elements, and the
    last and the first, are a point and its image. *)
Definition is_cycle_of (self : permutation) (c : list Z) : Prop :=
  c <> [] /\
  (forall x, In x c -> in_range self x) /\
  (forall x, In x c -> cyclic_successor c x = image self x).

(** [cs] is a decomposition of the permutation into disjoint cycles that
    cover [1 .. len(self)]. *)
Definition decomposition (self : permutation) (cs : list (list Z)) : Prop :=
  Forall (is_cycle_of self) cs /\
  NoDup (concat cs) /\
  (forall x, in_range self x -> In x (concat cs)).

(** The test that decides whether [_getcycles] records a cycle. *)
Definition keepb (self : permutation) (simplify : bool) (cycle : list Z) : bool :=
  negb simplify || (1 <? len cycle) || (hd 0 cycle =? __len__ self).


(** The complete decomposition, as [_getcycles(simplify=False)] computes
    it when given enough fuel. *)
Definition full_cycles (self : permutation) : list (list Z) :=
  match _getcycles (S (2 * length (_lookup self))) self false with
  | Ok cs => cs
  | _ => []
  end.

(** The simplified decomposition: the cycles that [_getcycles()] records. *)
Definition simple_cycles (self : permutation) : list (list Z) :=
  filter (keepb self true) (full_cycles self).


(** The canonical string of a permutation, as [__str__] computes it when
    given enough fuel. *)
Definition canonical_string (self : permutation) : string :=
  join "" (map render_cycle (simple_cycles self)).

(** The value of [self * other]. *)
Definition mul (self other : permutation) : permutation :=
  {| _lookup := table_of (simple_cycles self ++ simple_cycles other) |}.

(** The value of [self ** idx]. *)
Definition pow (self : permutation) (idx : Z) : permutation :=
  {| _lookup := table_of (list_mul (simple_cycles self) idx) |}.


(** The result of multiplying [self] by itself [j] more times:
    [self], [self * self], [(self * self) * self], ... *)
Definition mul_iter (self : permutation) (j : nat) : permutation :=
  Nat.iter j (fun result => mul result self) self.

(** The algorithm of the order, in the words of its description: start with
    [result = a * a] and [count = 1]; while [result] is not equal to [a],
    multiply [result] by [a] and increment [count]; return [count]. *)
Inductive order_spec_from (a : permutation) : permutation -> Z -> Z -> Prop :=
| order_spec_stop (result : permutation) (count : Z) :
    evaluates (fun fuel => __eq__ fuel result a) true ->
    order_spec_from a result count count
| order_spec_step (result result' : permutation) (count k : Z) :
    evaluates (fun fuel => __eq__ fuel result a) false ->
    evaluates (fun fuel => __mul__ fuel result a) result' ->
    order_spec_from a result' (count + 1) k ->
    order_spec_from a result count k.

Definition order_spec (a : permutation) (k : Z) : Prop :=
  exists result : permutation,
    evaluates (fun fuel => __mul__ fuel a a) result /\
    order_spec_from a result 1 k.

(** More fuel never changes a result. *)
Definition monotone {A : Type} (m : nat -> outcome A) : Prop :=
  forall (fuel : nat) (v : A), m fuel = Ok v ->
  forall fuel' : nat, (fuel <= fuel')%nat -> m fuel' = Ok v.


(** A transposition of two distinct points of [1 .. n], written as the
    cycle that exchanges them. *)
Definition is_transposition (n : Z) (t : list Z) : Prop :=
  exists x y : Z, t = [x; y] /\ x <> y /\ 1 <= x <= n /\ 1 <= y <= n.

(** [self] is the product of the transpositions [ts], composed from right
    to left like the cycles of the constructor. *)
Definition product_of (self : permutation) (ts : list (list Z)) : Prop :=
  Forall (is_transposition (__len__ self)) ts /\
  forall x : Z, compose_cycles ts x = image self x.

(** An odd permutation is a product of an odd number of transpositions, an
    even permutation a product of an even number of them. *)
Definition odd_permutation (self : permutation) : Prop :=
  exists ts, product_of self ts /\ Nat.odd (length ts) = true.

Definition even_permutation (self : permutation) : Prop :=
  exists ts, product_of self ts /\ Nat.even (length ts) = true.

(** The cycle [(x0 x1 ... xk)] as the product [(x0 x1)(x1 x2)...]. *)
Fixpoint cycle_transpositions (c : list Z) : list (list Z) :=
  match c with
  | x :: ((y :: _) as c') => [x; y] :: cycle_transpositions c'
  | _ => []
  end.

(** The cycles of even length, which [sgn] counts. *)
Definition even_cycles (cs : list (list Z)) : list (list Z) :=
  filter (fun x => len x mod 2 =? 0) cs.


(** ** The symmetric group of MathComp

    Points [1 .. m + 1] correspond to the ordinals of ['I_(m + 1)], a
    transposition to [tperm], and a product of transpositions to a product
    in ['S_(m + 1)]. *)

Module Symmetric.
#[local] Set Warnings "-notation-overridden,-ambiguous-paths".
Import ssrfun ssrbool eqtype ssrnat seq choice fintype finfun bigop finset fingroup perm.
Local Open Scope group_scope.

Definition pt (m : nat) (i : 'I_(S m)) : Z := (Z.of_nat (nat_of_ord i) + 1)%Z.

Definition ord (m : nat) (x : Z) : 'I_(S m) := inord (Z.to_nat (x - 1)).

Definition tp_of (m : nat) (t : list Z) : 'S_(S m) :=
  match t with
  | [x; y] => tperm (ord m x) (ord m y)
  | _ => 1
  end.

Fixpoint sperm (m : nat) (ts : list (list Z)) : 'S_(S m) :=
  match ts with
  | [] => 1
  | t :: ts' => sperm m ts' * tp_of m t
  end.

End Symmetric.


(** The transpositions whose product is the product of the cycles [cs]. *)
Definition transpositions_of (cs : list (list Z)) : list (list Z) :=
  concat (map cycle_transpositions cs).


(** Canonical order of a decomposition: every cycle starts at the lowest
    point that it and the cycles after it contain. *)
Fixpoint canonical (cs : list (list Z)) : Prop :=
  match cs with
  | [] => True
  | c :: rest => (forall y, In y (concat (c :: rest)) -> hd 0 c <= y) /\ canonical rest
  end.


(** Every character of [s] satisfies [P]. *)
Fixpoint string_all (P : ascii -> Prop) (s : string) : Prop :=
  match s with
  | EmptyString => True
  | String c s' => P c /\ string_all P s'
  end.

(** A character that is neither the separator nor a parenthesis of the
    cycle notation. *)
Definition plain (c : ascii) : Prop :=
  c <> " "%char /\ c <> "("%char /\ c <> ")"%char.

(** * Properties *)

(** ** The built-ins *)

Lemma index_lt {A : Type} (eqb : A -> A -> bool) (l : list A) (x : A) (i : nat) :
  index eqb l x = Some i -> (i < length l)%nat.
Proof.
  revert i; induction l as [|y l IH]; simpl; intros i H; [discriminate|].
  destruct (eqb y x).
  - injection H as <-. lia.
  - destruct (index eqb l x) as [j|]; simpl in H; [|discriminate].
    injection H as <-. specialize (IH j eq_refl). lia.
Qed.

Lemma index_nth (l : list Z) (x d : Z) (i : nat) :
  index Z.eqb l x = Some i -> nth i l d = x.
Proof.
  revert i; induction l as [|y l IH]; simpl; intros i H; [discriminate|].
  destruct (Z.eqb_spec y x) as [->|Hne].
  - injection H as <-. reflexivity.
  - destruct (index Z.eqb l x) as [j|]; simpl in H; [|discriminate].
    injection H as <-. apply IH. reflexivity.
Qed.

Lemma index_None (l : list Z) (x : Z) :
  index Z.eqb l x = None <-> ~ In x l.
Proof.
  induction l as [|y l IH]; simpl.
  - tauto.
  - destruct (Z.eqb_spec y x) as [->|Hne].
    + split; [discriminate|tauto].
    + destruct (index Z.eqb l x) as [j|]; simpl.
      * split; [discriminate|]. intros H. exfalso. apply H. right.
        destruct (in_dec Z.eq_dec x l) as [Hin|Hin]; [assumption|].
        apply IH in Hin. discriminate.
      * split; [|reflexivity]. intros _ [H|H]; [congruence|].
        apply (proj1 IH); [reflexivity|assumption].
Qed.

Lemma index_In (l : list Z) (x : Z) :
  In x l -> exists i, index Z.eqb l x = Some i.
Proof.
  intros Hin. destruct (index Z.eqb l x) as [i|] eqn:E.
  - exists i. reflexivity.
  - apply index_None in E. contradiction.
Qed.

Lemma index_Some_In (l : list Z) (x : Z) (i : nat) :
  index Z.eqb l x = Some i -> In x l.
Proof.
  intros H. destruct (in_dec Z.eq_dec x l) as [Hin|Hin]; [assumption|].
  apply index_None in Hin. congruence.
Qed.

Lemma index_nth_NoDup (l : list Z) (d : Z) (i : nat) :
  NoDup l -> (i < length l)%nat -> index Z.eqb l (nth i l d) = Some i.
Proof.
  intros Hnd Hi.
  destruct (index_In l (nth i l d) (nth_In l d Hi)) as [j Hj].
  rewrite Hj. f_equal.
  apply (proj1 (NoDup_nth l d) Hnd).
  - apply (index_lt _ _ _ _ Hj).
  - assumption.
  - apply index_nth. assumption.
Qed.

Lemma succ_pos_last (n i : nat) : S i = n -> succ_pos n i = O.
Proof. intros <-. unfold succ_pos. apply Nat.Div0.mod_same. Qed.

Lemma succ_pos_inner (n i : nat) : (S i < n)%nat -> succ_pos n i = S i.
Proof. intros H. unfold succ_pos. apply Nat.mod_small. assumption. Qed.

Lemma succ_pos_lt (n i : nat) : (i < n)%nat -> (succ_pos n i < n)%nat.
Proof. intros H. unfold succ_pos. apply Nat.mod_upper_bound. lia. Qed.

Lemma succ_pos_inj (n i j : nat) :
  (i < n)%nat -> (j < n)%nat -> succ_pos n i = succ_pos n j -> i = j.
Proof.
  intros Hi Hj.
  destruct (Nat.eq_dec (S i) n) as [Ei|Ei], (Nat.eq_dec (S j) n) as [Ej|Ej].
  - lia.
  - rewrite (succ_pos_last n i Ei), (succ_pos_inner n j) by lia. lia.
  - rewrite (succ_pos_last n j Ej), (succ_pos_inner n i) by lia. lia.
  - rewrite (succ_pos_inner n i), (succ_pos_inner n j) by lia. lia.
Qed.

Lemma norm_index_nonneg {A : Type} (l : list A) (i : nat) :
  (i < length l)%nat -> norm_index l (Z.of_nat i) = Some i.
Proof.
  intros H. unfold norm_index, len.
  destruct (Z.leb_spec 0 (Z.of_nat i)); [|lia].
  destruct (Z.ltb_spec (Z.of_nat i) (Z.of_nat (length l))); [|lia].
  simpl. rewrite Nat2Z.id. reflexivity.
Qed.

Lemma norm_index_neg {A : Type} (l : list A) (k : Z) :
  - len l <= k < 0 -> norm_index l k = Some (Z.to_nat (k + len l)).
Proof.
  intros H. unfold norm_index.
  destruct (Z.leb_spec 0 k); [lia|]. simpl.
  destruct (Z.leb_spec (- len l) k); [|lia].
  destruct (Z.ltb_spec k 0); [|lia]. reflexivity.
Qed.

Lemma norm_index_out {A : Type} (l : list A) (k : Z) :
  k < - len l \/ len l <= k -> norm_index l k = None.
Proof.
  intros H. unfold norm_index. unfold len in *.
  destruct (Z.leb_spec 0 k), (Z.ltb_spec k (Z.of_nat (length l))),
    (Z.leb_spec (- Z.of_nat (length l)) k), (Z.ltb_spec k 0);
    simpl; try reflexivity; lia.
Qed.

Lemma getitem_nonneg {A : Type} (l : list A) (i : nat) (d : A) :
  (i < length l)%nat -> getitem l (Z.of_nat i) = Ok (nth i l d).
Proof.
  intros H. unfold getitem. rewrite norm_index_nonneg by assumption.
  rewrite (nth_error_nth' l d H). reflexivity.
Qed.

Lemma getitem_neg {A : Type} (l : list A) (k : Z) (d : A) :
  - len l <= k < 0 -> getitem l k = Ok (nth (Z.to_nat (k + len l)) l d).
Proof.
  intros H. unfold getitem. rewrite norm_index_neg by assumption.
  rewrite (nth_error_nth' l d); [reflexivity|]. unfold len in *. lia.
Qed.

Lemma getitem_out {A : Type} (l : list A) (k : Z) :
  k < - len l \/ len l <= k ->
  getitem l k = Raise (IndexError "list index out of range").
Proof. intros H. unfold getitem. rewrite norm_index_out by assumption. reflexivity. Qed.

Lemma set_nth_length {A : Type} (l : list A) (i : nat) (v : A) :
  length (set_nth l i v) = length l.
Proof.
  revert i; induction l as [|a l IH]; intros [|i]; simpl; try reflexivity.
  rewrite IH. reflexivity.
Qed.

Lemma set_nth_same {A : Type} (l : list A) (i : nat) (v d : A) :
  (i < length l)%nat -> nth i (set_nth l i v) d = v.
Proof.
  revert i; induction l as [|a l IH]; intros [|i]; simpl; intros H; try lia.
  - reflexivity.
  - apply IH. lia.
Qed.

Lemma set_nth_other {A : Type} (l : list A) (i j : nat) (v d : A) :
  i <> j -> nth j (set_nth l i v) d = nth j l d.
Proof.
  revert i j; induction l as [|a l IH]; intros [|i] [|j]; simpl; intros H;
    try reflexivity; try lia.
  apply IH. lia.
Qed.

Lemma set_nth_app {A : Type} (l1 l2 : list A) (a v : A) :
  set_nth (l1 ++ a :: l2) (length l1) v = l1 ++ v :: l2.
Proof. induction l1 as [|b l1 IH]; simpl; [reflexivity|]. rewrite IH. reflexivity. Qed.

(** [cycle_step] never fails: the index it computes always designates a
    position of the cycle, and the element there is the cyclic successor. *)
Lemma cycle_step_total (cycle : list Z) (x : Z) :
  cycle_step cycle x = Ok (cyclic_successor cycle x).
Proof.
  unfold cycle_step, cyclic_successor.
  destruct (index Z.eqb cycle x) as [i|] eqn:E; [|reflexivity].
  pose proof (index_lt _ _ _ _ E) as Hi.
  destruct (Nat.eq_dec (S i) (length cycle)) as [Hl|Hl].
  - rewrite (succ_pos_last _ _ Hl).
    replace (Z.of_nat i - len cycle + 1) with (Z.of_nat 0) by (unfold len; lia).
    apply getitem_nonneg. lia.
  - rewrite succ_pos_inner by lia.
    rewrite (getitem_neg cycle _ x) by (unfold len; lia).
    do 2 f_equal. unfold len. lia.
Qed.

Lemma apply_cycles_total (cycles : list (list Z)) (x : Z) :
  apply_cycles (rev cycles) x = Ok (compose_cycles cycles x).
Proof.
  unfold compose_cycles. rewrite <- (rev_involutive cycles) at 2.
  rewrite fold_left_rev_right.
  generalize (rev cycles) as cs. clear cycles. intros cs. revert x.
  induction cs as [|c cs IH]; intros x; simpl; [reflexivity|].
  rewrite cycle_step_total. simpl. apply IH.
Qed.

(** ** Construction *)

Lemma fold_max_ge (l : list Z) (x : Z) : x <= fold_left Z.max l x.
Proof.
  revert x; induction l as [|y l IH]; intros x; simpl; [lia|].
  specialize (IH (Z.max x y)). lia.
Qed.

Lemma fold_max_spec (l : list Z) (x : Z) : is_max (fold_left Z.max l x) (x :: l).
Proof.
  revert x; induction l as [|y l IH]; intros x.
  - split; [left; reflexivity|]. intros z [<-|[]]. simpl. lia.
  - simpl fold_left. destruct (IH (Z.max x y)) as [Hin Hle]. split.
    + destruct Hin as [Hin|Hin].
      * rewrite <- Hin.
        destruct (Z.max_spec x y) as [[_ E]|[_ E]]; rewrite E.
        -- right; left; reflexivity.
        -- left; reflexivity.
      * right; right; assumption.
    + intros z [<-|[<-|Hz]].
      * specialize (Hle (Z.max x y) (or_introl eq_refl)). lia.
      * specialize (Hle (Z.max x y) (or_introl eq_refl)). lia.
      * apply Hle. right. assumption.
Qed.

Lemma maximum_spec (l : list Z) : l <> [] -> is_max (maximum l) l.
Proof. destruct l as [|x l]; [congruence|]. intros _. apply fold_max_spec. Qed.

Lemma py_max_ok (l : list Z) : l <> [] -> py_max l = Ok (maximum l).
Proof. destruct l as [|x l]; [congruence|]. reflexivity. Qed.

Lemma py_max_nil : py_max [] = Raise (ValueError "max() arg is an empty sequence").
Proof. reflexivity. Qed.

Lemma mapM_py_max (cycles : list (list Z)) :
  Forall (fun c => c <> []) cycles ->
  mapM py_max cycles = Ok (map maximum cycles).
Proof.
  induction 1 as [|c cs Hc _ IH]; simpl; [reflexivity|].
  rewrite (py_max_ok c Hc). simpl. rewrite IH. reflexivity.
Qed.

Lemma size_of_spec (cycles : list (list Z)) :
  cycles <> [] -> Forall (fun c => c <> []) cycles ->
  is_max (size_of cycles) (concat cycles).
Proof.
  intros Hne Hall. unfold size_of.
  assert (Hm : map maximum cycles <> []) by (destruct cycles; simpl; congruence).
  destruct (maximum_spec _ Hm) as [Hin Hle]. split.
  - apply in_map_iff in Hin. destruct Hin as [c [Ec Hc]].
    rewrite <- Ec. apply in_concat. exists c. split; [assumption|].
    apply maximum_spec. rewrite Forall_forall in Hall. apply Hall. assumption.
  - intros y Hy. apply in_concat in Hy. destruct Hy as [c [Hc Hy]].
    rewrite Forall_forall in Hall.
    destruct (maximum_spec c (Hall c Hc)) as [_ Hlec].
    specialize (Hlec y Hy).
    specialize (Hle (maximum c) (in_map maximum cycles c Hc)). lia.
Qed.

Lemma is_max_unique (l : list Z) (m1 m2 : Z) :
  is_max m1 l -> is_max m2 l -> m1 = m2.
Proof.
  intros [H1 L1] [H2 L2]. specialize (L1 m2 H2). specialize (L2 m1 H1). lia.
Qed.

Lemma setitem_nonneg {A : Type} (l : list A) (i : nat) (v : A) :
  (i < length l)%nat -> setitem l (Z.of_nat i) v = Ok (set_nth l i v).
Proof. intros H. unfold setitem. rewrite norm_index_nonneg by assumption. reflexivity. Qed.

(** The loop fills the table from left to right. *)
Lemma init_loop_spec (cycles : list (list Z)) (m k : nat) (filled : list Z) :
  length filled = k ->
  init_loop cycles (map (fun j => 1 + Z.of_nat j) (seq k m)) (filled ++ repeat 0 m)
  = Ok (filled ++ map (compose_cycles cycles) (map (fun j => 1 + Z.of_nat j) (seq k m))).
Proof.
  revert k filled; induction m as [|m IH]; intros k filled Hk;
    cbn [init_loop map seq repeat].
  - reflexivity.
  - rewrite apply_cycles_total. cbn [bind].
    replace (1 + Z.of_nat k - 1) with (Z.of_nat k) by lia.
    rewrite setitem_nonneg by (rewrite length_app; simpl; lia).
    cbn [bind].
    assert (E : set_nth (filled ++ 0 :: repeat 0 m) k
                  (compose_cycles cycles (1 + Z.of_nat k))
                = (filled ++ [compose_cycles cycles (1 + Z.of_nat k)]) ++ repeat 0 m).
    { subst k. rewrite set_nth_app, <- app_assoc. reflexivity. }
    rewrite E.
    rewrite IH by (rewrite length_app; simpl; lia).
    rewrite <- app_assoc. reflexivity.
Qed.

(** What the constructor returns on one or more non-empty cycles. *)
Lemma init_ok (cycles : list (list Z)) :
  cycles <> [] -> Forall (fun c => c <> []) cycles ->
  __init__ cycles = Ok {| _lookup := table_of cycles |}.
Proof.
  intros Hne Hall. unfold __init__.
  rewrite (mapM_py_max cycles Hall). cbn [bind].
  rewrite py_max_ok by (destruct cycles; simpl; congruence). cbn [bind].
  fold (size_of cycles).
  unfold xrange.
  replace (Z.to_nat (size_of cycles + 1 - 1)) with (Z.to_nat (size_of cycles))
    by (f_equal; lia).
  pose proof (init_loop_spec cycles (Z.to_nat (size_of cycles)) 0 [] eq_refl) as E.
  cbn [app] in E. rewrite E.
  cbn [bind]. unfold table_of, xrange.
  replace (Z.to_nat (size_of cycles + 1 - 1)) with (Z.to_nat (size_of cycles))
    by (f_equal; lia).
  reflexivity.
Qed.

Lemma xrange_length (a b : Z) : length (xrange a b) = Z.to_nat (b - a).
Proof. unfold xrange. rewrite length_map, length_seq. reflexivity. Qed.

Lemma xrange_nth (a b : Z) (i : nat) (d : Z) :
  (i < Z.to_nat (b - a))%nat -> nth i (xrange a b) d = a + Z.of_nat i.
Proof.
  intros H. unfold xrange.
  rewrite (nth_indep _ d (a + Z.of_nat 0))
    by (rewrite length_map, length_seq; assumption).
  change (a + Z.of_nat 0) with ((fun k => a + Z.of_nat k) 0%nat).
  rewrite map_nth, seq_nth by assumption. reflexivity.
Qed.

Lemma xrange_In (a b x : Z) : In x (xrange a b) <-> a <= x < b.
Proof.
  unfold xrange. rewrite in_map_iff. split.
  - intros [k [<- Hk]]. apply in_seq in Hk. lia.
  - intros H. exists (Z.to_nat (x - a)). split; [lia|]. apply in_seq. lia.
Qed.

Lemma xrange_NoDup (a b : Z) : NoDup (xrange a b).
Proof.
  unfold xrange. apply Injective_map_NoDup; [|apply seq_NoDup].
  intros i j H. lia.
Qed.

Lemma table_of_length (cycles : list (list Z)) :
  length (table_of cycles) = Z.to_nat (size_of cycles).
Proof.
  unfold table_of. rewrite length_map, xrange_length. f_equal. lia.
Qed.

Lemma table_of_nth (cycles : list (list Z)) (i d : Z) :
  1 <= i <= size_of cycles ->
  nth (Z.to_nat (i - 1)) (table_of cycles) d = compose_cycles cycles i.
Proof.
  intros H. unfold table_of.
  rewrite (nth_indep _ d (compose_cycles cycles 0))
    by (rewrite length_map, xrange_length; lia).
  rewrite map_nth. rewrite xrange_nth by lia. f_equal. lia.
Qed.

(** ** Cycles as maps *)

Lemma nodupb_NoDup (l : list Z) : nodupb l = true <-> NoDup l.
Proof.
  induction l as [|x l IH]; simpl.
  - split; [constructor|reflexivity].
  - rewrite andb_true_iff, negb_true_iff, IH. split.
    + intros [Hx Hl]. constructor; [|assumption]. intros Hin.
      assert (existsb (Z.eqb x) l = true); [|congruence].
      apply existsb_exists. exists x. split; [assumption|apply Z.eqb_refl].
    + intros H. inversion H as [|y l' Hx Hl]; subst. split; [|assumption].
      destruct (existsb (Z.eqb x) l) eqn:E; [|reflexivity].
      apply existsb_exists in E. destruct E as [y [Hy Exy]].
      apply Z.eqb_eq in Exy. subst y. contradiction.
Qed.

Lemma cyclic_successor_notin (c : list Z) (x : Z) :
  ~ In x c -> cyclic_successor c x = x.
Proof.
  intros H. unfold cyclic_successor.
  apply index_None in H. rewrite H. reflexivity.
Qed.

Lemma cyclic_successor_In (c : list Z) (x : Z) :
  In x c -> In (cyclic_successor c x) c.
Proof.
  intros H. unfold cyclic_successor.
  destruct (index_In c x H) as [i Hi]. rewrite Hi.
  apply nth_In. apply succ_pos_lt. apply (index_lt _ _ _ _ Hi).
Qed.

Lemma cyclic_successor_inj (c : list Z) (x y : Z) :
  NoDup c -> cyclic_successor c x = cyclic_successor c y -> x = y.
Proof.
  intros Hnd E.
  destruct (in_dec Z.eq_dec x c) as [Hx|Hx], (in_dec Z.eq_dec y c) as [Hy|Hy].
  - unfold cyclic_successor in E.
    destruct (index_In c x Hx) as [i Hi]. destruct (index_In c y Hy) as [j Hj].
    rewrite Hi, Hj in E.
    pose proof (index_lt _ _ _ _ Hi) as Li. pose proof (index_lt _ _ _ _ Hj) as Lj.
    rewrite (nth_indep c x 0), (nth_indep c y 0) in E by (apply succ_pos_lt; assumption).
    apply (proj1 (NoDup_nth c 0) Hnd) in E; try (apply succ_pos_lt; assumption).
    apply succ_pos_inj in E; try assumption. subst j.
    rewrite <- (index_nth c x 0 i Hi), <- (index_nth c y 0 i Hj). reflexivity.
  - pose proof (cyclic_successor_In c x Hx) as H.
    rewrite E, (cyclic_successor_notin c y Hy) in H. contradiction.
  - pose proof (cyclic_successor_In c y Hy) as H.
    rewrite <- E, (cyclic_successor_notin c x Hx) in H. contradiction.
  - rewrite (cyclic_successor_notin c x Hx), (cyclic_successor_notin c y Hy) in E.
    assumption.
Qed.

Lemma cyclic_successor_closed (P : Z -> Prop) (c : list Z) (x : Z) :
  (forall y, In y c -> P y) -> P x -> P (cyclic_successor c x).
Proof.
  intros Hc Hx. destruct (in_dec Z.eq_dec x c) as [Hin|Hin].
  - apply Hc. apply cyclic_successor_In. assumption.
  - rewrite cyclic_successor_notin by assumption. assumption.
Qed.

Lemma compose_cycles_inj (cycles : list (list Z)) (x y : Z) :
  Forall (@NoDup Z) cycles ->
  compose_cycles cycles x = compose_cycles cycles y -> x = y.
Proof.
  unfold compose_cycles. induction 1 as [|c cs Hc _ IH]; simpl; intros E.
  - assumption.
  - apply IH. apply (cyclic_successor_inj c); assumption.
Qed.

Lemma compose_cycles_closed (P : Z -> Prop) (cycles : list (list Z)) (x : Z) :
  (forall y, In y (concat cycles) -> P y) -> P x -> P (compose_cycles cycles x).
Proof.
  unfold compose_cycles. induction cycles as [|c cs IH]; simpl; intros Hc Hx.
  - assumption.
  - apply cyclic_successor_closed.
    + intros y Hy. apply Hc. apply in_or_app. left. assumption.
    + apply IH; [|assumption]. intros y Hy. apply Hc. apply in_or_app. right. assumption.
Qed.

Lemma compose_cycles_app (cs1 cs2 : list (list Z)) (x : Z) :
  compose_cycles (cs1 ++ cs2) x = compose_cycles cs1 (compose_cycles cs2 x).
Proof. unfold compose_cycles. apply fold_right_app. Qed.

(** ** Well-formed tables *)

Lemma well_formed_spec (a : permutation) :
  well_formed a = true <->
  1 <= __len__ a /\ NoDup (_lookup a) /\
  (forall x, In x (_lookup a) -> 1 <= x <= __len__ a).
Proof.
  unfold well_formed. rewrite !andb_true_iff, nodupb_NoDup, forallb_forall.
  rewrite Z.leb_le. split.
  - intros [[H1 H2] H3]. repeat split; try assumption;
      specialize (H3 x H); apply andb_true_iff in H3; destruct H3 as [Ha Hb];
      apply Z.leb_le in Ha, Hb; assumption.
  - intros [H1 [H2 H3]]. repeat split; try assumption.
    intros x Hx. specialize (H3 x Hx). apply andb_true_iff.
    rewrite !Z.leb_le. assumption.
Qed.

Lemma valid_cycle_spec (c : list Z) :
  valid_cycle c = true <-> c <> [] /\ NoDup c /\ (forall x, In x c -> 1 <= x).
Proof.
  unfold valid_cycle. rewrite !andb_true_iff, nodupb_NoDup, forallb_forall, negb_true_iff.
  unfold len. split.
  - intros [[H1 H2] H3]. repeat split; try assumption.
    + intros ->. simpl in H1. discriminate.
    + intros x Hx. apply Z.leb_le. apply H3. assumption.
  - intros [H1 [H2 H3]]. repeat split; try assumption.
    + destruct c; [congruence|]. reflexivity.
    + intros x Hx. apply Z.leb_le. apply H3. assumption.
Qed.

Lemma valid_cycles_spec (cycles : list (list Z)) :
  valid_cycles cycles = true <->
  cycles <> [] /\ Forall (fun c => c <> [] /\ NoDup c /\ forall x, In x c -> 1 <= x) cycles.
Proof.
  unfold valid_cycles. rewrite andb_true_iff, negb_true_iff, forallb_forall, Forall_forall.
  split.
  - intros [H1 H2]. split.
    + intros ->. discriminate.
    + intros c Hc. apply valid_cycle_spec. apply H2. assumption.
  - intros [H1 H2]. split.
    + destruct cycles; [congruence|]. reflexivity.
    + intros c Hc. apply valid_cycle_spec. apply H2. assumption.
Qed.

Lemma valid_cycles_nonempty (cycles : list (list Z)) :
  valid_cycles cycles = true -> cycles <> [] /\ Forall (fun c => c <> []) cycles.
Proof.
  intros H. apply valid_cycles_spec in H. destruct H as [H1 H2]. split; [assumption|].
  eapply Forall_impl; [|exact H2]. simpl. intros c Hc. apply Hc.
Qed.

Lemma valid_cycles_NoDup (cycles : list (list Z)) :
  valid_cycles cycles = true -> Forall (@NoDup Z) cycles.
Proof.
  intros H. apply valid_cycles_spec in H. destruct H as [H1 H2].
  eapply Forall_impl; [|exact H2]. simpl. intros c Hc. apply Hc.
Qed.

Lemma valid_cycles_range (cycles : list (list Z)) (y : Z) :
  valid_cycles cycles = true -> In y (concat cycles) -> 1 <= y <= size_of cycles.
Proof.
  intros H Hy. destruct (valid_cycles_nonempty _ H) as [Hne Hall].
  destruct (size_of_spec cycles Hne Hall) as [_ Hle].
  split; [|apply Hle; assumption].
  apply valid_cycles_spec in H. destruct H as [_ H].
  apply in_concat in Hy. destruct Hy as [c [Hc Hy]].
  rewrite Forall_forall in H. apply (H c Hc). assumption.
Qed.

Lemma valid_cycles_size (cycles : list (list Z)) :
  valid_cycles cycles = true -> 1 <= size_of cycles.
Proof.
  intros H. destruct (valid_cycles_nonempty _ H) as [Hne Hall].
  destruct (size_of_spec cycles Hne Hall) as [Hin _].
  apply (valid_cycles_range cycles _ H Hin).
Qed.

(** The table built from valid cycles satisfies the data-model invariant. *)
Lemma table_of_well_formed (cycles : list (list Z)) :
  valid_cycles cycles = true -> well_formed {| _lookup := table_of cycles |} = true.
Proof.
  intros H. apply well_formed_spec. unfold __len__, len. simpl.
  rewrite table_of_length. pose proof (valid_cycles_size cycles H) as Hs.
  rewrite Z2Nat.id by lia. split; [assumption|]. split.
  - unfold table_of. apply Injective_map_NoDup; [|apply xrange_NoDup].
    intros x y. apply compose_cycles_inj. apply valid_cycles_NoDup. assumption.
  - intros x Hx. unfold table_of in Hx. apply in_map_iff in Hx.
    destruct Hx as [i [<- Hi]]. apply xrange_In in Hi.
    apply (compose_cycles_closed (fun y => 1 <= y <= size_of cycles)).
    + intros y Hy. apply (valid_cycles_range cycles y H Hy).
    + lia.
Qed.

(** ** Application *)

Lemma call_in_range (a : permutation) (x : Z) :
  in_range a x -> __call__ a x = Ok (image a x).
Proof.
  intros [H1 H2]. unfold __call__, image, __len__ in *.
  replace (x - 1) with (Z.of_nat (Z.to_nat (x - 1))) at 1 by lia.
  rewrite (getitem_nonneg _ _ 0) by (unfold len in *; lia).
  destruct (Z.leb_spec 1 x); [|lia].
  destruct (Z.leb_spec x (len (_lookup a))); [|lia]. reflexivity.
Qed.

Lemma image_out (a : permutation) (x : Z) : ~ in_range a x -> image a x = x.
Proof.
  unfold in_range, image. intros H.
  destruct (Z.leb_spec 1 x), (Z.leb_spec x (__len__ a)); simpl; try reflexivity. lia.
Qed.

Lemma image_in (a : permutation) (x : Z) :
  in_range a x -> image a x = nth (Z.to_nat (x - 1)) (_lookup a) 0.
Proof.
  unfold in_range, image. intros H.
  destruct (Z.leb_spec 1 x), (Z.leb_spec x (__len__ a)); simpl; try reflexivity; lia.
Qed.

Section WellFormed.

Variable a : permutation.
Hypothesis Hwf : well_formed a = true.

Lemma wf_len : 1 <= __len__ a.
Proof. exact (proj1 (proj1 (well_formed_spec a) Hwf)). Qed.

Lemma wf_NoDup : NoDup (_lookup a).
Proof. exact (proj1 (proj2 (proj1 (well_formed_spec a) Hwf))). Qed.

Lemma wf_range (x : Z) : In x (_lookup a) -> in_range a x.
Proof. exact (proj2 (proj2 (proj1 (well_formed_spec a) Hwf)) x). Qed.

Lemma image_range (x : Z) : in_range a x -> in_range a (image a x).
Proof.
  intros H. rewrite image_in by assumption. apply wf_range. apply nth_In.
  unfold in_range, __len__, len in H. lia.
Qed.

Lemma image_inj (x y : Z) : image a x = image a y -> x = y.
Proof.
  intros E.
  assert (D : forall z, in_range a z \/ ~ in_range a z) by (intros z; unfold in_range; lia).
  destruct (D x) as [Hx|Hx], (D y) as [Hy|Hy].
  - rewrite !image_in in E by assumption.
    apply (proj1 (NoDup_nth _ 0) wf_NoDup) in E;
      unfold in_range, __len__, len in *; lia.
  - pose proof (image_range x Hx) as H. rewrite E, (image_out a y Hy) in H. contradiction.
  - pose proof (image_range y Hy) as H. rewrite <- E, (image_out a x Hx) in H. contradiction.
  - rewrite !image_out in E by assumption. assumption.
Qed.

Lemma orbit_S (x : Z) (j : nat) : orbit a x (S j) = image a (orbit a x j).
Proof. reflexivity. Qed.

Lemma orbit_shift (x : Z) (j : nat) : orbit a x (S j) = orbit a (image a x) j.
Proof.
  induction j as [|j IH]; [reflexivity|].
  rewrite orbit_S, IH. reflexivity.
Qed.

Lemma orbit_add (x : Z) (i j : nat) : orbit a x (i + j) = orbit a (orbit a x j) i.
Proof.
  induction i as [|i IH]; [reflexivity|].
  simpl Nat.add. rewrite !orbit_S, IH. reflexivity.
Qed.

Lemma orbit_range (x : Z) (j : nat) : in_range a x -> in_range a (orbit a x j).
Proof.
  intros H. induction j as [|j IH]; [assumption|].
  rewrite orbit_S. apply image_range. assumption.
Qed.

Lemma orbit_inj (x y : Z) (j : nat) : orbit a x j = orbit a y j -> x = y.
Proof.
  induction j as [|j IH]; [trivial|].
  rewrite !orbit_S. intros E. apply IH. apply image_inj. assumption.
Qed.

Lemma orbit_list_length (x : Z) (k : nat) : length (orbit_list a x k) = k.
Proof. unfold orbit_list. rewrite length_map, length_seq. reflexivity. Qed.

Lemma orbit_list_nth (x d : Z) (k j : nat) :
  (j < k)%nat -> nth j (orbit_list a x k) d = orbit a x j.
Proof.
  intros H. unfold orbit_list.
  rewrite (nth_indep _ d (orbit a x 0)) by (rewrite length_map, length_seq; assumption).
  rewrite map_nth, seq_nth by assumption. reflexivity.
Qed.

Lemma orbit_list_S (x : Z) (k : nat) :
  orbit_list a x (S k) = orbit_list a x k ++ [orbit a x k].
Proof. unfold orbit_list. rewrite seq_S, map_app. reflexivity. Qed.

Lemma orbit_list_In (x y : Z) (k : nat) :
  In y (orbit_list a x k) <-> exists j, (j < k)%nat /\ orbit a x j = y.
Proof.
  unfold orbit_list. rewrite in_map_iff. split.
  - intros [j [E Hj]]. apply in_seq in Hj. exists j. split; [lia|assumption].
  - intros [j [Hj E]]. exists j. split; [assumption|]. apply in_seq. lia.
Qed.

(** Either the walk from [x] is back at [x] within [m] steps, or its first
    [m + 1] points are pairwise distinct. *)
Lemma orbit_back_or_distinct (x : Z) (m : nat) :
  (exists k, (1 <= k <= m)%nat /\ orbit a x k = x) \/ NoDup (orbit_list a x (S m)).
Proof.
  induction m as [|m [[k [Hk E]]|IH]].
  - right. repeat constructor. intros [].
  - left. exists k. split; [lia|assumption].
  - destruct (in_dec Z.eq_dec (orbit a x (S m)) (orbit_list a x (S m))) as [Hin|Hin].
    + apply orbit_list_In in Hin. destruct Hin as [[|j] [Hj E]].
      * left. exists (S m). split; [lia|]. symmetry. assumption.
      * exfalso. rewrite !orbit_S in E. apply image_inj in E.
        rewrite <- (orbit_list_nth x 0 (S m) j), <- (orbit_list_nth x 0 (S m) m) in E by lia.
        apply (proj1 (NoDup_nth _ 0) IH) in E; rewrite ?orbit_list_length; lia.
    + right. rewrite (orbit_list_S x (S m)). apply NoDup_app.
      * assumption.
      * repeat constructor. intros [].
      * intros y Hy [<-|[]]. contradiction.
Qed.

(** Following a well-formed permutation from a point of its range leads
    back to that point in at most [len] steps. *)
Lemma orbit_returns (x : Z) :
  in_range a x ->
  exists k, (1 <= k <= length (_lookup a))%nat /\ orbit a x k = x.
Proof.
  intros Hx. destruct (orbit_back_or_distinct x (length (_lookup a))) as [H|H];
    [assumption|exfalso].
  assert (Hincl : incl (orbit_list a x (S (length (_lookup a))))
                       (xrange 1 (__len__ a + 1))).
  { intros y Hy. apply orbit_list_In in Hy. destruct Hy as [j [_ <-]].
    apply xrange_In. pose proof (orbit_range x j Hx) as R. unfold in_range in R. lia. }
  pose proof (NoDup_incl_length H Hincl) as L.
  rewrite orbit_list_length, xrange_length in L. unfold __len__, len in L. lia.
Qed.

End WellFormed.

(** ** Decomposition into cycles *)

Lemma NoDup_app_disjoint {A : Type} (l1 l2 : list A) (x : A) :
  NoDup (l1 ++ l2) -> In x l1 -> ~ In x l2.
Proof.
  induction l1 as [|y l1 IH]; simpl; intros Hnd Hin; [contradiction|].
  inversion Hnd as [|y' l' Hy Hl]; subst.
  destruct Hin as [->|Hin].
  - intros H. apply Hy. apply in_or_app. right. assumption.
  - apply IH; assumption.
Qed.

Lemma any_false (l : list bool) (i : nat) :
  any l = false -> (i < length l)%nat -> nth i l true = false.
Proof.
  unfold any. revert i; induction l as [|b l IH]; intros i H Hi; simpl in *; [lia|].
  apply orb_false_iff in H. destruct H as [Hb Hl].
  destruct i as [|i]; [assumption|]. apply IH; [assumption|lia].
Qed.

Lemma any_true_index (l : list bool) :
  any l = true ->
  exists i, index Bool.eqb l true = Some i /\ (i < length l)%nat /\
            nth i l true = true /\
            forall j, (j < i)%nat -> nth j l true = false.
Proof.
  unfold any. induction l as [|b l IH]; simpl; intros H; [discriminate|].
  destruct b; simpl.
  - exists O. repeat split; try lia.
  - simpl in H. destruct (IH H) as [i [E [Hi [Hn Hf]]]].
    exists (S i). rewrite E. repeat split; try lia; try assumption.
    intros [|j] Hj; [reflexivity|]. apply Hf. lia.
Qed.

Lemma keep_cycle_total (a : permutation) (simplify : bool) (c : list Z) :
  c <> [] -> keep_cycle a simplify c = Ok (keepb a simplify c).
Proof.
  intros Hc. unfold keep_cycle, keepb.
  destruct (negb simplify || (1 <? len c)); [reflexivity|].
  destruct c as [|x c]; [congruence|]. reflexivity.
Qed.

Lemma marks_ext (a : permutation) (nd : list bool) (D D' : list Z) :
  marks a nd D -> (forall y, In y D <-> In y D') -> marks a nd D'.
Proof.
  intros [Hl Hm] E. split; [assumption|].
  intros i Hi. rewrite (Hm i Hi). apply E.
Qed.

Lemma marks_set (a : permutation) (nd : list bool) (D : list Z) (x : Z) :
  marks a nd D -> in_range a x ->
  marks a (set_nth nd (Z.to_nat (x - 1)) false) (D ++ [x]).
Proof.
  intros [Hl Hm] Hx. unfold in_range, __len__, len in Hx. split.
  - rewrite set_nth_length. assumption.
  - intros i Hi. rewrite in_app_iff. simpl.
    destruct (Nat.eq_dec (Z.to_nat (x - 1)) i) as [E|E].
    + subst i. rewrite set_nth_same by lia. split; [intros _|reflexivity].
      right. left. lia.
    + rewrite set_nth_other by assumption. rewrite (Hm i Hi).
      split; [tauto|]. intros [H|[H|[]]]; [assumption|lia].
Qed.

Lemma marks_setitem (a : permutation) (nd : list bool) (D : list Z) (x : Z) :
  marks a nd D -> in_range a x ->
  setitem nd (x - 1) false = Ok (set_nth nd (Z.to_nat (x - 1)) false).
Proof.
  intros [Hl _] Hx. unfold in_range, __len__, len in Hx.
  replace (x - 1) with (Z.of_nat (Z.to_nat (x - 1))) at 1 by lia.
  apply setitem_nonneg. lia.
Qed.

Section Decomposition.

Variable a : permutation.
Hypothesis Hwf : well_formed a = true.

(** The inner loop stops at the first return to [start], having listed the
    points met on the way and marked them. *)
Lemma follow_spec (start : Z) (K : nat) (done : list Z) :
  in_range a start -> orbit a start K = start ->
  forall (d j : nat) (nd : list bool),
    (j + d = K)%nat -> (1 <= j)%nat ->
    (forall i, (0 < i < j)%nat -> orbit a start i <> start) ->
    marks a nd (done ++ orbit_list a start j) ->
    exists (k : nat) (nd' : list bool),
      (j <= k <= K)%nat /\ orbit a start k = start /\
      (forall i, (0 < i < k)%nat -> orbit a start i <> start) /\
      marks a nd' (done ++ orbit_list a start k) /\
      forall fuel, (k - j < fuel)%nat ->
        follow fuel a start (orbit_list a start j) nd (orbit a start j)
        = Ok (orbit_list a start k, nd').
Proof.
  intros Hs HK. induction d as [|d IH]; intros j nd Hj H1 Hmin Hm.
  - exists j, nd. replace j with K in * by lia.
    refine (conj _ (conj HK (conj Hmin (conj Hm _)))); [lia|].
    intros [|fuel] Hf; [lia|]. simpl. rewrite HK, Z.eqb_refl. reflexivity.
  - destruct (Z.eq_dec (orbit a start j) start) as [E|E].
    + exists j, nd. refine (conj _ (conj E (conj Hmin (conj Hm _)))); [lia|].
      intros [|fuel] Hf; [lia|]. simpl. rewrite E, Z.eqb_refl. reflexivity.
    + pose proof (orbit_range a Hwf start j Hs) as Hr.
      destruct (IH (S j) (set_nth nd (Z.to_nat (orbit a start j - 1)) false))
        as [k [nd' [Hk [Ek [Hmin' [Hm' Hfollow]]]]]].
      * lia.
      * lia.
      * intros i Hi. destruct (Nat.eq_dec i j) as [->|Hne]; [assumption|].
        apply Hmin. lia.
      * rewrite orbit_list_S, app_assoc. apply marks_set; assumption.
      * exists k, nd'. refine (conj _ (conj Ek (conj Hmin' (conj Hm' _)))); [lia|].
        intros [|fuel] Hf; [lia|]. cbn [follow].
        destruct (Z.eqb_spec (orbit a start j) start) as [|_]; [contradiction|].
        cbn [negb]. rewrite (marks_setitem a nd _ _ Hm Hr). cbn [bind].
        rewrite (call_in_range a _ Hr). cbn [bind].
        rewrite <- orbit_S, <- orbit_list_S. apply Hfollow. lia.
Qed.

Lemma orbit_list_NoDup (start : Z) (k : nat) :
  (forall i, (0 < i < k)%nat -> orbit a start i <> start) ->
  NoDup (orbit_list a start k).
Proof.
  intros Hmin. apply (NoDup_nth _ 0). rewrite orbit_list_length.
  assert (W : forall i j, (i < j)%nat -> (j < k)%nat ->
                orbit a start i = orbit a start j -> False).
  { intros i j Hij Hj E.
    replace j with (i + (j - i))%nat in E by lia.
    rewrite orbit_add in E. apply (orbit_inj a Hwf) in E.
    apply (Hmin (j - i)%nat); [lia|]. symmetry. assumption. }
  intros i j Hi Hj E. rewrite !orbit_list_nth in E by assumption.
  destruct (Nat.lt_trichotomy i j) as [H|[H|H]]; [exfalso|assumption|exfalso].
  - apply (W i j H Hj E).
  - apply (W j i H Hi (eq_sym E)).
Qed.

Lemma orbit_list_is_cycle (start : Z) (k : nat) :
  in_range a start -> (1 <= k)%nat -> orbit a start k = start ->
  (forall i, (0 < i < k)%nat -> orbit a start i <> start) ->
  is_cycle_of a (orbit_list a start k).
Proof.
  intros Hs Hk Ek Hmin. pose proof (orbit_list_NoDup start k Hmin) as Hnd.
  split; [|split].
  - destruct k; [lia|]. discriminate.
  - intros x Hx. apply orbit_list_In in Hx. destruct Hx as [j [_ <-]].
    apply orbit_range; assumption.
  - intros x Hx. apply orbit_list_In in Hx. destruct Hx as [j [Hj <-]].
    unfold cyclic_successor.
    rewrite <- (orbit_list_nth a start 0 k j Hj) at 1.
    rewrite index_nth_NoDup by (rewrite ?orbit_list_length; assumption).
    rewrite orbit_list_length.
    destruct (Nat.eq_dec (S j) k) as [E|E].
    + rewrite (succ_pos_last k j E).
      rewrite (nth_indep _ _ 0) by (rewrite orbit_list_length; lia).
      rewrite orbit_list_nth by lia.
      rewrite <- orbit_S, E, Ek. reflexivity.
    + rewrite succ_pos_inner by lia.
      rewrite (nth_indep _ _ 0) by (rewrite orbit_list_length; lia).
      rewrite orbit_list_nth by lia. reflexivity.
Qed.

Lemma cycles_closed (full : list (list Z)) (y : Z) :
  Forall (is_cycle_of a) full -> In y (concat full) -> In (image a y) (concat full).
Proof.
  intros Hall Hy. apply in_concat in Hy. destruct Hy as [c [Hc Hy]].
  apply in_concat. exists c. split; [assumption|].
  rewrite Forall_forall in Hall. destruct (Hall c Hc) as [_ [_ Hs]].
  rewrite <- (Hs y Hy). apply cyclic_successor_In. assumption.
Qed.

Lemma cycles_closed_orbit (full : list (list Z)) (y : Z) (j : nat) :
  Forall (is_cycle_of a) full -> In y (concat full) -> In (orbit a y j) (concat full).
Proof.
  intros Hall Hy. induction j as [|j IH]; [assumption|].
  rewrite orbit_S. apply cycles_closed; assumption.
Qed.

Lemma cycles_in_range (full : list (list Z)) (y : Z) :
  Forall (is_cycle_of a) full -> In y (concat full) -> in_range a y.
Proof.
  intros Hall Hy. apply in_concat in Hy. destruct Hy as [c [Hc Hy]].
  rewrite Forall_forall in Hall. destruct (Hall c Hc) as [_ [Hr _]]. apply Hr. assumption.
Qed.

(** The outer loop: from a state that has recorded the cycles [full], it
    completes them into a decomposition, and returns those that pass the
    test of [simplify]. *)
Lemma getcycles_loop_spec (m : nat) :
  forall (nd : list bool) (full : list (list Z)),
    Forall (is_cycle_of a) full -> NoDup (concat full) ->
    marks a nd (concat full) ->
    (length (_lookup a) <= length (concat full) + m)%nat ->
    exists rest : list (list Z),
      decomposition a (full ++ rest) /\ canonical rest /\
      forall (fuel : nat) (simplify : bool),
        (m + length (_lookup a) < fuel)%nat ->
        getcycles_loop fuel a simplify nd (filter (keepb a simplify) full)
        = Ok (filter (keepb a simplify) (full ++ rest)).
Proof.
  induction m as [|m IH]; intros nd full Hall Hnd Hm Hlen;
    (destruct (any nd) eqn:Hany;
     [ destruct (any_true_index nd Hany) as [i [Ei [Hi [Hni Hfirst]]]];
       pose proof Hm as [Hl Hmk]; rewrite Hl in Hi;
       assert (Hs : in_range a (Z.of_nat i + 1))
         by (unfold in_range, __len__, len; lia);
       assert (Hnot : ~ In (Z.of_nat i + 1) (concat full))
         by (intros Hin; apply (Hmk i Hi) in Hin; congruence)
     | exists []; rewrite app_nil_r; split;
       [ split; [assumption|split; [assumption|]];
         intros x Hx; destruct Hm as [Hl Hmk];
         unfold in_range, __len__, len in Hx;
         replace x with (Z.of_nat (Z.to_nat (x - 1)) + 1) by lia;
         apply Hmk; [lia|]; apply any_false; [assumption|lia]
       | split; [exact I|];
         intros [|fuel] simplify Hf; [lia|]; simpl; rewrite Hany; reflexivity ] ]).
  - exfalso. apply Hnot.
    assert (Hincl : incl (concat full) (xrange 1 (__len__ a + 1))).
    { intros y Hy. apply xrange_In. pose proof (cycles_in_range full y Hall Hy) as R.
      unfold in_range in R. lia. }
    apply (NoDup_length_incl Hnd) in Hincl.
    + apply Hincl. apply xrange_In. unfold in_range in Hs. lia.
    + rewrite xrange_length. unfold __len__, len. lia.
  - set (start := Z.of_nat i + 1) in *.
    destruct (orbit_returns a Hwf start Hs) as [K [HK EK]].
    destruct (follow_spec start K (concat full) Hs EK (K - 1) 1
                (set_nth nd (Z.to_nat (start - 1)) false))
      as [k [nd' [Hk [Ek [Hmin [Hm' Hfollow]]]]]].
    + lia.
    + lia.
    + intros j Hj. lia.
    + apply marks_set; assumption.
    + pose proof (orbit_list_is_cycle start k Hs (proj1 Hk) Ek Hmin) as Hcyc.
      pose proof (orbit_list_NoDup start k Hmin) as Hndc.
      assert (Hdisj : forall y, In y (concat full) -> ~ In y (orbit_list a start k)).
      { intros y Hy Hin. apply orbit_list_In in Hin. destruct Hin as [j [Hj Ej]].
        apply Hnot. fold start. rewrite <- Ek.
        replace k with ((k - j) + j)%nat by lia. rewrite orbit_add, Ej.
        apply cycles_closed_orbit; assumption. }
      destruct (IH nd' (full ++ [orbit_list a start k])) as [rest [Hdec [Hcan Hrun]]].
      * apply Forall_app. split; [assumption|]. constructor; [assumption|constructor].
      * rewrite concat_app. simpl. rewrite app_nil_r. apply NoDup_app; assumption.
      * rewrite concat_app. simpl. rewrite app_nil_r. assumption.
      * rewrite concat_app, length_app. simpl. rewrite app_nil_r, orbit_list_length. lia.
      * exists (orbit_list a start k :: rest).
        replace (full ++ orbit_list a start k :: rest)
          with ((full ++ [orbit_list a start k]) ++ rest)
          by (rewrite <- app_assoc; reflexivity).
        split; [assumption|]. split.
        { split; [|assumption]. intros y Hy.
          replace (hd 0 (orbit_list a start k)) with start
            by (destruct k; [lia|reflexivity]).
          destruct Hdec as [Hall' [Hnd' _]].
          assert (Hy' : In y (concat ((full ++ [orbit_list a start k]) ++ rest))).
          { rewrite <- app_assoc, concat_app. apply in_or_app. right. exact Hy. }
          pose proof (cycles_in_range _ y Hall' Hy') as Hry.
          assert (Hny : ~ In y (concat full)).
          { intros Hin. rewrite <- app_assoc, concat_app in Hnd'.
            apply (NoDup_app_disjoint _ _ _ Hnd' Hin). exact Hy. }
          destruct (Z_lt_le_dec y start) as [Hlt|Hle]; [exfalso|assumption].
          apply Hny. unfold in_range in Hry.
          replace y with (Z.of_nat (Z.to_nat (y - 1)) + 1) by lia.
          apply Hmk; [unfold start in Hlt; lia|].
          apply Hfirst. unfold start in Hlt. lia. }
        intros [|fuel] simplify Hf; [lia|]. cbn [getcycles_loop].
        rewrite Hany, Ei. fold start.
        rewrite (marks_setitem a nd _ _ Hm Hs). cbn [bind].
        rewrite (call_in_range a _ Hs). cbn [bind].
        change [start] with (orbit_list a start 1).
        change (image a start) with (orbit a start 1).
        rewrite Hfollow by lia. cbn [bind].
        rewrite keep_cycle_total by (apply Hcyc). cbn [bind].
        rewrite <- (Hrun fuel simplify) by lia.
        f_equal. rewrite filter_app. simpl.
        destruct (keepb a simplify (orbit_list a start k)).
        -- reflexivity.
        -- rewrite app_nil_r. reflexivity.
Qed.

End Decomposition.

Lemma marks_initial (a : permutation) :
  marks a (repeat true (length (_lookup a))) [].
Proof.
  split; [apply repeat_length|]. intros i Hi. simpl.
  rewrite nth_repeat. split; [discriminate|tauto].
Qed.

Lemma filter_keepb_false (a : permutation) (cs : list (list Z)) :
  filter (keepb a false) cs = cs.
Proof.
  induction cs as [|c cs IH]; simpl; [reflexivity|]. rewrite IH. reflexivity.
Qed.

(** [_getcycles] returns on every well-formed permutation: the complete
    decomposition, filtered by the test of [simplify]. *)
Lemma getcycles_spec (a : permutation) :
  well_formed a = true ->
  decomposition a (full_cycles a) /\
  forall (fuel : nat) (simplify : bool),
    (2 * length (_lookup a) < fuel)%nat ->
    _getcycles fuel a simplify = Ok (filter (keepb a simplify) (full_cycles a)).
Proof.
  intros Hwf.
  destruct (getcycles_loop_spec a Hwf (length (_lookup a))
              (repeat true (length (_lookup a))) [])
    as [full [Hdec [_ Hrun]]].
  - constructor.
  - constructor.
  - apply marks_initial.
  - simpl. lia.
  - simpl in Hdec, Hrun.
    assert (E : full_cycles a = full).
    { unfold full_cycles, _getcycles.
      rewrite (Hrun (S (2 * length (_lookup a))) false) by lia.
      apply filter_keepb_false. }
    rewrite E. split; [assumption|].
    intros fuel simplify Hf. unfold _getcycles. apply Hrun. lia.
Qed.

(** The complete decomposition lists the cycles in canonical order. *)
Lemma full_cycles_canonical (a : permutation) :
  well_formed a = true -> canonical (full_cycles a).
Proof.
  intros Hwf.
  destruct (getcycles_loop_spec a Hwf (length (_lookup a))
              (repeat true (length (_lookup a))) [])
    as [full [_ [Hcan Hrun]]].
  - constructor.
  - constructor.
  - apply marks_initial.
  - simpl. lia.
  - simpl in Hrun.
    assert (E : full_cycles a = full).
    { unfold full_cycles, _getcycles.
      rewrite (Hrun (S (2 * length (_lookup a))) false) by lia.
      apply filter_keepb_false. }
    rewrite E. assumption.
Qed.

Lemma getcycles_evaluates (a : permutation) (simplify : bool) :
  well_formed a = true ->
  evaluates (fun fuel => _getcycles fuel a simplify)
            (filter (keepb a simplify) (full_cycles a)).
Proof.
  intros Hwf. exists (S (2 * length (_lookup a))). intros fuel Hf.
  apply (getcycles_spec a Hwf). lia.
Qed.

(** ** Rebuilding a permutation from its cycles *)

Lemma compose_cycles_notin (cs : list (list Z)) (x : Z) :
  ~ In x (concat cs) -> compose_cycles cs x = x.
Proof.
  unfold compose_cycles. induction cs as [|c cs IH]; simpl; intros H; [reflexivity|].
  rewrite IH by (intros Hin; apply H; apply in_or_app; right; assumption).
  apply cyclic_successor_notin. intros Hin. apply H. apply in_or_app. left. assumption.
Qed.

Section Rebuild.

Variable a : permutation.
Hypothesis Hwf : well_formed a = true.

(** Disjoint cycles of the permutation, applied in any order, move each of
    their points to its image. *)
Lemma compose_cycles_in (cs : list (list Z)) (x : Z) :
  Forall (is_cycle_of a) cs -> NoDup (concat cs) -> In x (concat cs) ->
  compose_cycles cs x = image a x.
Proof.
  induction cs as [|c cs IH]; simpl; intros Hall Hnd Hin; [contradiction|].
  inversion Hall as [|c' cs' Hc Hcs]; subst.
  change (compose_cycles (c :: cs) x) with (cyclic_successor c (compose_cycles cs x)).
  destruct (in_dec Z.eq_dec x (concat cs)) as [Hx|Hx].
  - rewrite IH; try assumption; [|apply (NoDup_app_remove_l _ _ Hnd)].
    apply cyclic_successor_notin. intros Hi.
    apply (NoDup_app_disjoint _ _ _ Hnd Hi).
    apply cycles_closed; assumption.
  - rewrite compose_cycles_notin by assumption.
    apply in_app_or in Hin. destruct Hin as [Hin|Hin]; [|contradiction].
    apply Hc. assumption.
Qed.

Lemma filter_concat_incl (f : list Z -> bool) (cs : list (list Z)) :
  incl (concat (filter f cs)) (concat cs).
Proof.
  intros x Hx. apply in_concat in Hx. destruct Hx as [c [Hc Hx]].
  apply filter_In in Hc. apply in_concat. exists c. tauto.
Qed.

Lemma filter_concat_NoDup (f : list Z -> bool) (cs : list (list Z)) :
  NoDup (concat cs) -> NoDup (concat (filter f cs)).
Proof.
  induction cs as [|c cs IH]; simpl; intros Hnd; [constructor|].
  pose proof (IH (NoDup_app_remove_l _ _ Hnd)) as Hrec.
  destruct (f c); [|assumption]. simpl. apply NoDup_app.
  - apply (NoDup_app_remove_r _ _ Hnd).
  - assumption.
  - intros x Hx Hin. apply (NoDup_app_disjoint _ _ _ Hnd Hx).
    apply (filter_concat_incl f cs). assumption.
Qed.

Lemma simple_cycles_all : Forall (is_cycle_of a) (simple_cycles a).
Proof.
  destruct (getcycles_spec a Hwf) as [[Hall _] _].
  apply Forall_forall. intros c Hc. apply filter_In in Hc.
  rewrite Forall_forall in Hall. apply Hall. apply Hc.
Qed.

Lemma simple_cycles_NoDup : NoDup (concat (simple_cycles a)).
Proof.
  destruct (getcycles_spec a Hwf) as [[_ [Hnd _]] _].
  apply filter_concat_NoDup. assumption.
Qed.

Lemma singleton_successor (x : Z) : cyclic_successor [x] x = x.
Proof. unfold cyclic_successor. simpl. rewrite Z.eqb_refl. reflexivity. Qed.

(** A point that the simplified decomposition does not list is fixed. *)
Lemma simple_cycles_fixed (x : Z) :
  in_range a x -> ~ In x (concat (simple_cycles a)) ->
  image a x = x /\ x <> __len__ a.
Proof.
  intros Hx Hnot. destruct (getcycles_spec a Hwf) as [[Hall [_ Hcov]] _].
  specialize (Hcov x Hx). apply in_concat in Hcov. destruct Hcov as [c [Hc Hin]].
  rewrite Forall_forall in Hall. destruct (Hall c Hc) as [_ [_ Hs]].
  destruct (keepb a true c) eqn:Hk.
  - exfalso. apply Hnot. apply in_concat. exists c. split; [|assumption].
    apply filter_In. split; assumption.
  - unfold keepb in Hk. simpl in Hk. apply orb_false_iff in Hk.
    destruct Hk as [Hlen Hhd]. apply Z.ltb_ge in Hlen. apply Z.eqb_neq in Hhd.
    destruct c as [|y [|z c]]; unfold len in Hlen; simpl in *; try lia; try contradiction.
    destruct Hin as [->|[]]. split; [|assumption].
    rewrite <- (Hs x (or_introl eq_refl)). apply singleton_successor.
Qed.

(** Applying the simplified cycles, rightmost first, is applying the
    permutation. *)
Lemma compose_simple_cycles (x : Z) :
  compose_cycles (simple_cycles a) x = image a x.
Proof.
  destruct (in_dec Z.eq_dec x (concat (simple_cycles a))) as [Hin|Hin].
  - apply compose_cycles_in; [apply simple_cycles_all|apply simple_cycles_NoDup|assumption].
  - rewrite compose_cycles_notin by assumption.
    assert (D : in_range a x \/ ~ in_range a x) by (unfold in_range; lia).
    destruct D as [Hx|Hx].
    + symmetry. apply simple_cycles_fixed; assumption.
    + symmetry. apply image_out. assumption.
Qed.

Lemma simple_cycles_max : is_max (__len__ a) (concat (simple_cycles a)).
Proof.
  assert (Hn : in_range a (__len__ a))
    by (pose proof (wf_len a Hwf); unfold in_range; lia).
  split.
  - destruct (in_dec Z.eq_dec (__len__ a) (concat (simple_cycles a))) as [Hin|Hin];
      [assumption|].
    destruct (simple_cycles_fixed _ Hn Hin) as [_ H]. congruence.
  - intros y Hy. apply (cycles_in_range a _ y simple_cycles_all Hy).
Qed.

Lemma simple_cycles_valid : valid_cycles (simple_cycles a) = true.
Proof.
  apply valid_cycles_spec. split.
  - destruct simple_cycles_max as [Hin _]. intros E. rewrite E in Hin. contradiction.
  - pose proof simple_cycles_all as Hall. pose proof simple_cycles_NoDup as Hnd.
    revert Hall Hnd. generalize (simple_cycles a) as cs.
    induction cs as [|c cs IH]; intros Hall Hnd; constructor.
    + inversion Hall as [|c' cs' [H1 [H2 H3]] Hcs]; subst.
      split; [assumption|]. split.
      * simpl in Hnd. apply (NoDup_app_remove_r _ _ Hnd).
      * intros x Hx. apply (H2 x Hx).
    + apply IH.
      * inversion Hall; assumption.
      * simpl in Hnd. apply (NoDup_app_remove_l _ _ Hnd).
Qed.

Lemma simple_cycles_size : size_of (simple_cycles a) = __len__ a.
Proof.
  destruct (valid_cycles_nonempty _ simple_cycles_valid) as [Hne Hall].
  apply (is_max_unique (concat (simple_cycles a))).
  - apply size_of_spec; assumption.
  - apply simple_cycles_max.
Qed.

End Rebuild.

Lemma lookup_as_map (a : permutation) :
  _lookup a = map (image a) (xrange 1 (__len__ a + 1)).
Proof.
  apply (nth_ext _ _ 0 (image a 0)).
  - rewrite length_map, xrange_length. unfold __len__, len. lia.
  - intros i Hi. rewrite map_nth.
    rewrite xrange_nth by (unfold __len__, len; lia).
    rewrite image_in by (unfold in_range, __len__, len; lia).
    f_equal. lia.
Qed.

(** The constructor applied to the simplified cycles of a permutation
    returns that permutation. *)
Lemma perm_simple_cycles (a : permutation) :
  well_formed a = true -> perm (simple_cycles a) = Ok a.
Proof.
  intros Hwf. unfold perm.
  destruct (valid_cycles_nonempty _ (simple_cycles_valid a Hwf)) as [Hne Hall].
  rewrite (init_ok _ Hne Hall). f_equal.
  assert (E : table_of (simple_cycles a) = _lookup a).
  { unfold table_of. rewrite (simple_cycles_size _ Hwf), (lookup_as_map a) at 1.
    apply map_ext. intros x. apply compose_simple_cycles. assumption. }
  rewrite E. destruct a as [l]. reflexivity.
Qed.

(** ** Evaluation with fuel *)

Lemma evaluates_ret {A : Type} (v : A) : evaluates (fun _ => Ok v) v.
Proof. exists O. reflexivity. Qed.

Lemma evaluates_bind {A B : Type} (m : nat -> outcome A) (k : nat -> A -> outcome B)
    (v : A) (w : B) :
  evaluates m v -> evaluates (fun fuel => k fuel v) w ->
  evaluates (fun fuel => x <- m fuel ;; k fuel x) w.
Proof.
  intros [f1 H1] [f2 H2]. exists (Nat.max f1 f2). intros fuel Hf.
  rewrite H1 by lia. simpl. apply H2. lia.
Qed.

Lemma evaluates_det {A : Type} (m : nat -> outcome A) (v w : A) :
  evaluates m v -> evaluates m w -> v = w.
Proof.
  intros [f1 H1] [f2 H2].
  specialize (H1 (Nat.max f1 f2) (Nat.le_max_l _ _)).
  specialize (H2 (Nat.max f1 f2) (Nat.le_max_r _ _)).
  congruence.
Qed.

Lemma raises_bind_ok {A B : Type} (m : nat -> outcome A) (k : nat -> A -> outcome B)
    (v : A) (e : exn) :
  evaluates m v -> raises (fun fuel => k fuel v) e ->
  raises (fun fuel => x <- m fuel ;; k fuel x) e.
Proof.
  intros [f1 H1] [f2 H2]. exists (Nat.max f1 f2). intros fuel Hf.
  rewrite H1 by lia. simpl. apply H2. lia.
Qed.

Lemma simple_cycles_evaluates (a : permutation) :
  well_formed a = true ->
  evaluates (fun fuel => _getcycles fuel a true) (simple_cycles a).
Proof. intros Hwf. apply (getcycles_evaluates a true Hwf). Qed.

(** ** Tables built from valid cycles *)

Lemma table_len (cs : list (list Z)) :
  valid_cycles cs = true -> __len__ {| _lookup := table_of cs |} = size_of cs.
Proof.
  intros H. unfold __len__, len. simpl. rewrite table_of_length.
  pose proof (valid_cycles_size cs H). lia.
Qed.

Lemma table_image (cs : list (list Z)) (x : Z) :
  valid_cycles cs = true -> image {| _lookup := table_of cs |} x = compose_cycles cs x.
Proof.
  intros H.
  assert (D : 1 <= x <= size_of cs \/ ~ 1 <= x <= size_of cs) by lia.
  destruct D as [Hx|Hx].
  - rewrite image_in by (unfold in_range; rewrite table_len by assumption; assumption).
    simpl. apply table_of_nth. assumption.
  - rewrite image_out by (unfold in_range; rewrite table_len by assumption; assumption).
    symmetry. apply compose_cycles_notin. intros Hin.
    apply Hx. apply (valid_cycles_range cs x H Hin).
Qed.

Lemma valid_cycles_app (cs1 cs2 : list (list Z)) :
  valid_cycles cs1 = true -> valid_cycles cs2 = true -> valid_cycles (cs1 ++ cs2) = true.
Proof.
  intros H1 H2. apply valid_cycles_spec.
  apply valid_cycles_spec in H1, H2. destruct H1 as [N1 F1], H2 as [N2 F2]. split.
  - destruct cs1; [congruence|]. discriminate.
  - apply Forall_app. split; assumption.
Qed.

Lemma size_of_app (cs1 cs2 : list (list Z)) :
  valid_cycles cs1 = true -> valid_cycles cs2 = true ->
  size_of (cs1 ++ cs2) = Z.max (size_of cs1) (size_of cs2).
Proof.
  intros H1 H2.
  destruct (valid_cycles_nonempty _ H1) as [N1 F1].
  destruct (valid_cycles_nonempty _ H2) as [N2 F2].
  destruct (valid_cycles_nonempty _ (valid_cycles_app _ _ H1 H2)) as [N F].
  apply (is_max_unique (concat (cs1 ++ cs2))); [apply size_of_spec; assumption|].
  destruct (size_of_spec cs1 N1 F1) as [I1 L1].
  destruct (size_of_spec cs2 N2 F2) as [I2 L2].
  rewrite concat_app. split.
  - apply in_or_app.
    destruct (Z.max_spec (size_of cs1) (size_of cs2)) as [[_ E]|[_ E]]; rewrite E; tauto.
  - intros y Hy. apply in_app_or in Hy. destruct Hy as [Hy|Hy].
    + specialize (L1 y Hy). lia.
    + specialize (L2 y Hy). lia.
Qed.

Lemma perm_valid (cs : list (list Z)) :
  valid_cycles cs = true -> perm cs = Ok {| _lookup := table_of cs |}.
Proof.
  intros H. destruct (valid_cycles_nonempty _ H) as [Hne Hall].
  apply init_ok; assumption.
Qed.

(** Two permutations of the same length with the same images are the
    same value. *)
Lemma perm_ext (a b : permutation) :
  __len__ a = __len__ b -> (forall x, image a x = image b x) -> a = b.
Proof.
  intros Hl Hi.
  assert (E : _lookup a = _lookup b).
  { rewrite (lookup_as_map a), (lookup_as_map b), Hl. apply map_ext. assumption. }
  destruct a as [la], b as [lb]. simpl in E. rewrite E. reflexivity.
Qed.

(** ** Multiplication *)

Section Multiplication.

Variables a b : permutation.
Hypothesis Ha : well_formed a = true.
Hypothesis Hb : well_formed b = true.

Lemma mul_cycles_valid : valid_cycles (simple_cycles a ++ simple_cycles b) = true.
Proof. apply valid_cycles_app; apply simple_cycles_valid; assumption. Qed.

Lemma mul_evaluates : evaluates (fun fuel => __mul__ fuel a b) (mul a b).
Proof.
  unfold __mul__.
  apply (evaluates_bind _ _ (simple_cycles a)); [apply simple_cycles_evaluates; assumption|].
  apply (evaluates_bind _ (fun _ cs2 => perm (simple_cycles a ++ cs2)) (simple_cycles b));
    [apply simple_cycles_evaluates; assumption|].
  exists O. intros _ _. apply perm_valid. apply mul_cycles_valid.
Qed.

Lemma mul_well_formed : well_formed (mul a b) = true.
Proof. apply table_of_well_formed. apply mul_cycles_valid. Qed.

Lemma mul_len : __len__ (mul a b) = Z.max (__len__ a) (__len__ b).
Proof.
  unfold mul. rewrite table_len by apply mul_cycles_valid.
  rewrite size_of_app by (apply simple_cycles_valid; assumption).
  rewrite !simple_cycles_size by assumption. reflexivity.
Qed.

Lemma mul_image (x : Z) : image (mul a b) x = image a (image b x).
Proof.
  unfold mul. rewrite table_image by apply mul_cycles_valid.
  rewrite compose_cycles_app, !compose_simple_cycles by assumption. reflexivity.
Qed.

End Multiplication.

(** ** Canonical strings and equality *)

Lemma str_evaluates (a : permutation) :
  well_formed a = true ->
  evaluates (fun fuel => __str__ fuel a) (canonical_string a).
Proof.
  intros Hwf. unfold __str__.
  apply (evaluates_bind _ (fun _ cs => Ok (join "" (map render_cycle cs))) (simple_cycles a)).
  - apply simple_cycles_evaluates. assumption.
  - apply evaluates_ret.
Qed.

Lemma eq_evaluates (a b : permutation) :
  well_formed a = true -> well_formed b = true ->
  evaluates (fun fuel => __eq__ fuel a b)
            (String.eqb (canonical_string a) (canonical_string b)).
Proof.
  intros Ha Hb. unfold __eq__.
  apply (evaluates_bind _ _ (canonical_string a)); [apply str_evaluates; assumption|].
  apply (evaluates_bind _ (fun _ s2 => Ok (String.eqb (canonical_string a) s2))
           (canonical_string b)); [apply str_evaluates; assumption|].
  apply evaluates_ret.
Qed.

Lemma ne_evaluates (a b : permutation) :
  well_formed a = true -> well_formed b = true ->
  evaluates (fun fuel => __ne__ fuel a b)
            (negb (String.eqb (canonical_string a) (canonical_string b))).
Proof.
  intros Ha Hb. unfold __ne__.
  apply (evaluates_bind _ (fun _ e => Ok (negb e))
           (String.eqb (canonical_string a) (canonical_string b)));
    [apply eq_evaluates; assumption|apply evaluates_ret].
Qed.

Lemma eq_refl_evaluates (a : permutation) :
  well_formed a = true -> evaluates (fun fuel => __eq__ fuel a a) true.
Proof.
  intros Ha. rewrite <- (String.eqb_refl (canonical_string a)).
  apply eq_evaluates; assumption.
Qed.

(** ** Fuel is monotone *)

Ltac bind_inv H :=
  match type of H with
  | bind ?m _ = Ok _ =>
      let E := fresh "E" in
      destruct m eqn:E; cbn [bind] in H; [|discriminate H|discriminate H]
  end.

Lemma monotone_const {A : Type} (r : outcome A) : monotone (fun _ => r).
Proof. intros fuel v H fuel' _. assumption. Qed.

Lemma monotone_bind {A B : Type} (m : nat -> outcome A) (k : nat -> A -> outcome B) :
  monotone m -> (forall x, monotone (fun fuel => k fuel x)) ->
  monotone (fun fuel => x <- m fuel ;; k fuel x).
Proof.
  intros Hm Hk fuel v H fuel' Hf. bind_inv H.
  rewrite (Hm fuel a E fuel' Hf). cbn [bind]. apply (Hk a fuel v H fuel' Hf).
Qed.

Lemma monotone_evaluates {A : Type} (m : nat -> outcome A) (fuel : nat) (v : A) :
  monotone m -> m fuel = Ok v -> evaluates m v.
Proof. intros Hm H. exists fuel. intros fuel' Hf. apply (Hm fuel v H fuel' Hf). Qed.

Lemma follow_monotone (a : permutation) (start : Z) :
  forall (cycle : list Z) (nd : list bool) (next : Z),
    monotone (fun fuel => follow fuel a start cycle nd next).
Proof.
  intros cycle nd next fuel. revert cycle nd next.
  induction fuel as [|fuel IH]; intros cycle nd next v H fuel' Hf; [discriminate|].
  destruct fuel' as [|fuel']; [lia|]. cbn [follow] in *.
  destruct (negb (next =? start)); [|assumption].
  bind_inv H. cbn [bind]. bind_inv H. cbn [bind].
  apply (IH _ _ _ _ H). lia.
Qed.

Lemma getcycles_loop_monotone (a : permutation) (simplify : bool) :
  forall (nd : list bool) (cycles : list (list Z)),
    monotone (fun fuel => getcycles_loop fuel a simplify nd cycles).
Proof.
  intros nd cycles fuel. revert nd cycles.
  induction fuel as [|fuel IH]; intros nd cycles v H fuel' Hf; [discriminate|].
  destruct fuel' as [|fuel']; [lia|]. cbn [getcycles_loop] in *.
  destruct (any nd); [|assumption].
  destruct (index Bool.eqb nd true) as [i|]; [|discriminate].
  bind_inv H. cbn [bind]. bind_inv H. cbn [bind]. bind_inv H.
  rewrite (follow_monotone a _ _ _ _ fuel _ E1 fuel') by lia. cbn [bind].
  destruct a2 as [cycle nd2]. bind_inv H. cbn [bind].
  apply (IH _ _ _ H). lia.
Qed.

Lemma getcycles_monotone (a : permutation) (simplify : bool) :
  monotone (fun fuel => _getcycles fuel a simplify).
Proof. unfold _getcycles. apply getcycles_loop_monotone. Qed.

Lemma mul_monotone (a b : permutation) : monotone (fun fuel => __mul__ fuel a b).
Proof.
  unfold __mul__. apply monotone_bind; [apply getcycles_monotone|]. intros cs1.
  apply (monotone_bind _ (fun _ cs2 => perm (cs1 ++ cs2))); [apply getcycles_monotone|].
  intros cs2. apply monotone_const.
Qed.

Lemma pow_monotone (a : permutation) (k : Z) : monotone (fun fuel => __pow__ fuel a k).
Proof.
  unfold __pow__.
  apply (monotone_bind _ (fun _ cs => perm (list_mul cs k))); [apply getcycles_monotone|].
  intros cs. apply monotone_const.
Qed.

Lemma str_monotone (a : permutation) : monotone (fun fuel => __str__ fuel a).
Proof.
  unfold __str__.
  apply (monotone_bind _ (fun _ cs => Ok (join "" (map render_cycle cs))));
    [apply getcycles_monotone|].
  intros cs. apply monotone_const.
Qed.

Lemma repr_monotone (a : permutation) : monotone (fun fuel => __repr__ fuel a).
Proof.
  unfold __repr__.
  apply (monotone_bind _ (fun _ cs => Ok ("perm(" ++ join ", " (map str_tuple cs) ++ ")")%string));
    [apply getcycles_monotone|].
  intros cs. apply monotone_const.
Qed.

Lemma eq_monotone (a b : permutation) : monotone (fun fuel => __eq__ fuel a b).
Proof.
  unfold __eq__. apply monotone_bind; [apply str_monotone|]. intros s1.
  apply (monotone_bind _ (fun _ s2 => Ok (String.eqb s1 s2))); [apply str_monotone|].
  intros s2. apply monotone_const.
Qed.

Lemma ne_monotone (a b : permutation) : monotone (fun fuel => __ne__ fuel a b).
Proof.
  unfold __ne__.
  apply (monotone_bind _ (fun _ e => Ok (negb e))); [apply eq_monotone|].
  intros e. apply monotone_const.
Qed.

Lemma order_loop_monotone (a : permutation) :
  forall (result : permutation) (count : Z),
    monotone (fun fuel => order_loop fuel a result count).
Proof.
  intros result count fuel. revert result count.
  induction fuel as [|fuel IH]; intros result count v H fuel' Hf; [discriminate|].
  destruct fuel' as [|fuel']; [lia|]. cbn [order_loop] in *.
  bind_inv H. rewrite (ne_monotone _ _ fuel _ E fuel') by lia. cbn [bind].
  destruct a0; [|assumption].
  bind_inv H. rewrite (mul_monotone _ _ fuel _ E0 fuel') by lia. cbn [bind].
  apply (IH _ _ _ H). lia.
Qed.

Lemma order_monotone (a : permutation) : monotone (fun fuel => order fuel a).
Proof.
  unfold order. apply monotone_bind; [apply mul_monotone|].
  intros r. apply order_loop_monotone.
Qed.

Lemma sgn_monotone (a : permutation) : monotone (fun fuel => sgn fuel a).
Proof.
  unfold sgn.
  apply (monotone_bind _ (fun _ cs =>
           Ok (-2 * (len (filter (fun x => len x mod 2 =? 0) cs) mod 2) + 1)));
    [apply getcycles_monotone|].
  intros cs. apply monotone_const.
Qed.

(** ** Powers *)

Lemma list_mul_S {A : Type} (l : list A) (k : Z) :
  0 <= k -> list_mul l (k + 1) = l ++ list_mul l k.
Proof.
  intros H. unfold list_mul.
  replace (Z.to_nat (k + 1)) with (S (Z.to_nat k)) by lia. reflexivity.
Qed.

Lemma list_mul_nonpos {A : Type} (l : list A) (k : Z) : k <= 0 -> list_mul l k = [].
Proof.
  intros H. unfold list_mul. replace (Z.to_nat k) with O by lia. reflexivity.
Qed.

Lemma list_mul_nat {A : Type} (l : list A) (k : nat) :
  list_mul l (Z.of_nat (S k)) = l ++ list_mul l (Z.of_nat k).
Proof.
  replace (Z.of_nat (S k)) with (Z.of_nat k + 1) by lia. apply list_mul_S. lia.
Qed.

Lemma list_mul_valid (cs : list (list Z)) (k : nat) :
  valid_cycles cs = true -> valid_cycles (list_mul cs (Z.of_nat (S k))) = true.
Proof.
  intros H. induction k as [|k IH].
  - rewrite list_mul_nat, list_mul_nonpos, app_nil_r by lia. assumption.
  - rewrite list_mul_nat. apply valid_cycles_app; assumption.
Qed.

Lemma list_mul_size (cs : list (list Z)) (k : nat) :
  valid_cycles cs = true -> size_of (list_mul cs (Z.of_nat (S k))) = size_of cs.
Proof.
  intros H. induction k as [|k IH].
  - rewrite list_mul_nat, list_mul_nonpos, app_nil_r by lia. reflexivity.
  - rewrite list_mul_nat, size_of_app, IH; try assumption; [lia|].
    apply list_mul_valid. assumption.
Qed.

Lemma list_mul_compose (cs : list (list Z)) (k : nat) (x : Z) :
  compose_cycles (list_mul cs (Z.of_nat k)) x = Nat.iter k (compose_cycles cs) x.
Proof.
  induction k as [|k IH].
  - rewrite list_mul_nonpos by lia. reflexivity.
  - rewrite list_mul_nat, compose_cycles_app, IH. reflexivity.
Qed.

Section Power.

Variable a : permutation.
Hypothesis Ha : well_formed a = true.

Lemma pow_cycles_valid (k : Z) :
  1 <= k -> valid_cycles (list_mul (simple_cycles a) k) = true.
Proof.
  intros Hk. replace k with (Z.of_nat (S (Z.to_nat (k - 1)))) by lia.
  apply list_mul_valid. apply simple_cycles_valid. assumption.
Qed.

Lemma pow_evaluates (k : Z) :
  1 <= k -> evaluates (fun fuel => __pow__ fuel a k) (pow a k).
Proof.
  intros Hk. unfold __pow__.
  apply (evaluates_bind _ (fun _ cs => perm (list_mul cs k)) (simple_cycles a));
    [apply simple_cycles_evaluates; assumption|].
  exists O. intros _ _. apply perm_valid. apply pow_cycles_valid. assumption.
Qed.

Lemma pow_raises (k : Z) :
  k <= 0 ->
  raises (fun fuel => __pow__ fuel a k) (ValueError "max() arg is an empty sequence").
Proof.
  intros Hk. unfold __pow__.
  apply (raises_bind_ok _ (fun _ cs => perm (list_mul cs k)) (simple_cycles a));
    [apply simple_cycles_evaluates; assumption|].
  exists O. intros _ _. rewrite list_mul_nonpos by assumption. reflexivity.
Qed.

Lemma pow_well_formed (k : Z) : 1 <= k -> well_formed (pow a k) = true.
Proof. intros Hk. apply table_of_well_formed. apply pow_cycles_valid. assumption. Qed.

Lemma pow_len (k : Z) : 1 <= k -> __len__ (pow a k) = __len__ a.
Proof.
  intros Hk. unfold pow. rewrite table_len by (apply pow_cycles_valid; assumption).
  replace k with (Z.of_nat (S (Z.to_nat (k - 1)))) by lia.
  rewrite list_mul_size by (apply simple_cycles_valid; assumption).
  apply simple_cycles_size. assumption.
Qed.

Lemma pow_image (k : Z) (x : Z) :
  1 <= k -> image (pow a k) x = orbit a x (Z.to_nat k).
Proof.
  intros Hk. unfold pow. rewrite table_image by (apply pow_cycles_valid; assumption).
  replace k with (Z.of_nat (Z.to_nat k)) at 1 by lia.
  rewrite list_mul_compose. unfold orbit.
  generalize (Z.to_nat k) as j. induction j as [|j IH]; [reflexivity|].
  simpl. rewrite IH. apply compose_simple_cycles. assumption.
Qed.

(** *** Repeated multiplication by [a] *)

Lemma mul_iter_S (j : nat) : mul_iter a (S j) = mul (mul_iter a j) a.
Proof. reflexivity. Qed.

Lemma mul_iter_well_formed (j : nat) : well_formed (mul_iter a j) = true.
Proof.
  induction j as [|j IH]; [assumption|].
  rewrite mul_iter_S. apply mul_well_formed; assumption.
Qed.

Lemma mul_iter_len (j : nat) : __len__ (mul_iter a j) = __len__ a.
Proof.
  induction j as [|j IH]; [reflexivity|].
  rewrite mul_iter_S, mul_len, IH by (try apply mul_iter_well_formed; assumption). lia.
Qed.

Lemma mul_iter_image (j : nat) (x : Z) : image (mul_iter a j) x = orbit a x (S j).
Proof.
  revert x. induction j as [|j IH]; intros x; [reflexivity|].
  rewrite mul_iter_S, mul_image by (try apply mul_iter_well_formed; assumption).
  rewrite IH. symmetry. apply (orbit_shift a x (S j)).
Qed.

Lemma orbit_out (x : Z) (j : nat) : ~ in_range a x -> orbit a x j = x.
Proof.
  intros H. induction j as [|j IH]; [reflexivity|].
  rewrite orbit_S, IH. apply image_out. assumption.
Qed.

Lemma orbit_mult (x : Z) (k q : nat) : orbit a x k = x -> orbit a x (q * k) = x.
Proof.
  intros H. induction q as [|q IH]; [reflexivity|].
  simpl Nat.mul. rewrite Nat.add_comm, orbit_add, H. assumption.
Qed.

Lemma divide_fact (k n : nat) : (1 <= k <= n)%nat -> Nat.divide k (fact n).
Proof.
  induction n as [|n IH]; intros H; [lia|].
  destruct (Nat.eq_dec k (S n)) as [->|Hne].
  - change (fact (S n)) with (S n * fact n)%nat. apply Nat.divide_factor_l.
  - change (fact (S n)) with (S n * fact n)%nat. apply Nat.divide_mul_r. apply IH. lia.
Qed.

(** After [len!] steps every point is back where it started. *)
Lemma orbit_fact (x : Z) : orbit a x (fact (length (_lookup a))) = x.
Proof.
  assert (D : in_range a x \/ ~ in_range a x) by (unfold in_range; lia).
  destruct D as [Hx|Hx]; [|apply orbit_out; assumption].
  destruct (orbit_returns a Ha x Hx) as [k [Hk Ek]].
  destruct (divide_fact k _ Hk) as [q Eq]. rewrite Eq.
  apply orbit_mult. assumption.
Qed.

Lemma mul_iter_fact : mul_iter a (fact (length (_lookup a))) = a.
Proof.
  apply perm_ext; [apply mul_iter_len|].
  intros x. rewrite mul_iter_image, orbit_S, orbit_fact. reflexivity.
Qed.

(** The loop of [order], entered with the [j]-th product, stops at the
    first product equal to [a], which comes at the latest after [K]
    multiplications when the [K]-th product is [a] itself. *)
Lemma order_loop_spec (K : nat) :
  mul_iter a K = a ->
  forall (d j : nat), (j + d = K)%nat ->
    exists k : nat, (j <= k <= K)%nat /\
      evaluates (fun fuel => order_loop fuel a (mul_iter a j) (Z.of_nat j)) (Z.of_nat k) /\
      order_spec_from a (mul_iter a j) (Z.of_nat j) (Z.of_nat k).
Proof.
  intros HK. induction d as [|d IH]; intros j Hj.
  - replace j with K in * by lia. exists K. split; [lia|]. split.
    + destruct (ne_evaluates (mul_iter a K) a (mul_iter_well_formed K) Ha) as [f1 H1].
      exists (S f1). intros [|fuel] Hf; [lia|]. cbn [order_loop].
      rewrite H1 by lia. rewrite HK, String.eqb_refl. reflexivity.
    + apply order_spec_stop. rewrite HK. apply eq_refl_evaluates. assumption.
  - pose proof (mul_iter_well_formed j) as Hwj.
    pose proof (ne_evaluates (mul_iter a j) a Hwj Ha) as [f1 H1].
    pose proof (eq_evaluates (mul_iter a j) a Hwj Ha) as Heq.
    destruct (String.eqb (canonical_string (mul_iter a j)) (canonical_string a)) eqn:E.
    + exists j. split; [lia|]. split.
      * exists (S f1). intros [|fuel] Hf; [lia|]. cbn [order_loop].
        rewrite H1 by lia. reflexivity.
      * apply order_spec_stop. assumption.
    + destruct (IH (S j)) as [k [Hk [[f2 H2] Hspec]]]; [lia|].
      destruct (mul_evaluates (mul_iter a j) a Hwj Ha) as [f3 H3].
      exists k. split; [lia|]. split.
      * exists (S (Nat.max f1 (Nat.max f2 f3))). intros [|fuel] Hf; [lia|].
        cbn [order_loop]. rewrite H1 by lia. cbn [bind negb].
        rewrite H3 by lia. cbn [bind].
        replace (Z.of_nat j + 1) with (Z.of_nat (S j)) by lia.
        rewrite <- mul_iter_S. apply H2. lia.
      * apply (order_spec_step a _ (mul_iter a (S j))).
        -- assumption.
        -- rewrite mul_iter_S. apply mul_evaluates; assumption.
        -- replace (Z.of_nat j + 1) with (Z.of_nat (S j)) by lia. assumption.
Qed.

Lemma order_evaluates :
  exists k : Z, 1 <= k /\ evaluates (fun fuel => order fuel a) k /\ order_spec a k.
Proof.
  pose proof (lt_O_fact (length (_lookup a))) as HK.
  destruct (order_loop_spec _ mul_iter_fact (fact (length (_lookup a)) - 1) 1)
    as [k [Hk [Hev Hspec]]]; [lia|].
  exists (Z.of_nat k). split; [lia|]. split.
  - unfold order. apply (evaluates_bind _ _ (mul a a)).
    + apply mul_evaluates; assumption.
    + exact Hev.
  - exists (mul a a). split; [apply mul_evaluates; assumption|exact Hspec].
Qed.

End Power.

(** ** Parity *)

Lemma swap_successor (x y z : Z) :
  x <> y ->
  cyclic_successor [x; y] z = if z =? x then y else if z =? y then x else z.
Proof.
  intros Hxy. unfold cyclic_successor. simpl.
  rewrite (Z.eqb_sym z x), (Z.eqb_sym z y).
  destruct (Z.eqb_spec x z) as [E|E]; [reflexivity|].
  destruct (Z.eqb_spec y z) as [E'|E']; reflexivity.
Qed.

Module SymmetricFacts.
#[local] Set Warnings "-notation-overridden,-ambiguous-paths".
Import ssrfun ssrbool eqtype ssrnat seq choice fintype finfun bigop finset fingroup perm.
Import Symmetric.
Local Open Scope group_scope.

Section Bridge.

Variable m : nat.

Lemma pt_ord (x : Z) : (1 <= x <= Z.of_nat (S m))%Z -> pt m (ord m x) = x.
Proof.
  intros Hx. unfold pt, ord. rewrite inordK.
  - lia.
  - apply (introT ltP). lia.
Qed.

Lemma ord_pt (i : 'I_(S m)) : ord m (pt m i) = i.
Proof.
  unfold pt, ord. apply val_inj. simpl. rewrite inordK.
  - lia.
  - pose proof (elimT ltP (ltn_ord i)) as H. apply (introT ltP). lia.
Qed.

Lemma pt_inj (i j : 'I_(S m)) : pt m i = pt m j -> i = j.
Proof. intros E. rewrite <- (ord_pt i), <- (ord_pt j), E. reflexivity. Qed.

Lemma pt_range (i : 'I_(S m)) : (1 <= pt m i <= Z.of_nat (S m))%Z.
Proof. unfold pt. pose proof (elimT ltP (ltn_ord i)) as H. lia. Qed.

Lemma ord_neq (x y : Z) :
  (1 <= x <= Z.of_nat (S m))%Z -> (1 <= y <= Z.of_nat (S m))%Z -> x <> y ->
  ord m x <> ord m y.
Proof.
  intros Hx Hy Hxy H.
  apply Hxy. rewrite <- (pt_ord x Hx), <- (pt_ord y Hy), H. reflexivity.
Qed.

(** [tperm] exchanges the two points like the 2-cycle does. *)
Lemma tp_of_spec (t : list Z) (i : 'I_(S m)) :
  is_transposition (Z.of_nat (S m)) t ->
  pt m (tp_of m t i) = cyclic_successor t (pt m i).
Proof.
  intros [x [y [-> [Hxy [Hx Hy]]]]]. rewrite swap_successor by assumption.
  cbn [tp_of].
  destruct (Z.eqb_spec (pt m i) x) as [E|E].
  - assert (Ei : i = ord m x) by (rewrite <- E, ord_pt; reflexivity).
    rewrite Ei, tpermL. apply pt_ord. assumption.
  - destruct (Z.eqb_spec (pt m i) y) as [E'|E'].
    + assert (Ei : i = ord m y) by (rewrite <- E', ord_pt; reflexivity).
      rewrite Ei, tpermR. apply pt_ord. assumption.
    + rewrite tpermD; [reflexivity| |].
      * apply (introT negP). intros H. apply (elimT eqP) in H.
        apply E. rewrite <- H. apply pt_ord. assumption.
      * apply (introT negP). intros H. apply (elimT eqP) in H.
        apply E'. rewrite <- H. apply pt_ord. assumption.
Qed.

Lemma sperm_spec (ts : list (list Z)) (i : 'I_(S m)) :
  Forall (is_transposition (Z.of_nat (S m))) ts ->
  pt m (sperm m ts i) = compose_cycles ts (pt m i).
Proof.
  induction 1 as [|t ts Ht _ IH]; simpl.
  - rewrite perm1. reflexivity.
  - rewrite permM, tp_of_spec by assumption. rewrite IH. reflexivity.
Qed.

(** The parity of a product of transpositions is that of their number. *)
Lemma odd_sperm (ts : list (list Z)) :
  Forall (is_transposition (Z.of_nat (S m))) ts ->
  odd_perm (sperm m ts) = Nat.odd (length ts).
Proof.
  induction 1 as [|t ts Ht _ IH].
  - simpl. apply odd_perm1.
  - cbn [sperm length]. rewrite odd_permM, IH, Nat.odd_succ, <- Nat.negb_odd.
    destruct Ht as [x [y [-> [Hxy [Hx Hy]]]]]. cbn [tp_of]. rewrite odd_tperm.
    match goal with
    | |- context [negb ?b] =>
        match b with
        | context [ord m x] => assert (E : negb b = true)
        end
    end.
    { apply (introT negP). intros H. apply (elimT eqP) in H.
      apply (ord_neq x y Hx Hy Hxy H). }
    rewrite E. destruct (Nat.odd (length ts)); reflexivity.
Qed.

(** Two products of transpositions that move every point alike have the
    same number of factors modulo 2. *)
Lemma parity_from_images (ts1 ts2 : list (list Z)) :
  Forall (is_transposition (Z.of_nat (S m))) ts1 ->
  Forall (is_transposition (Z.of_nat (S m))) ts2 ->
  (forall x, (1 <= x <= Z.of_nat (S m))%Z ->
             compose_cycles ts1 x = compose_cycles ts2 x) ->
  Nat.odd (length ts1) = Nat.odd (length ts2).
Proof.
  intros H1 H2 E.
  rewrite <- (odd_sperm ts1 H1), <- (odd_sperm ts2 H2). f_equal.
  apply (proj1 (permP _ _)). intros i. apply pt_inj.
  rewrite !sperm_spec by assumption. apply E. apply pt_range.
Qed.

End Bridge.

End SymmetricFacts.

Lemma product_parity (a : permutation) (ts1 ts2 : list (list Z)) :
  well_formed a = true -> product_of a ts1 -> product_of a ts2 ->
  Nat.odd (length ts1) = Nat.odd (length ts2).
Proof.
  intros Hwf [T1 I1] [T2 I2]. pose proof (wf_len a Hwf) as Hlen.
  assert (E : __len__ a = Z.of_nat (S (Z.to_nat (__len__ a - 1)))) by lia.
  rewrite E in T1, T2.
  apply (SymmetricFacts.parity_from_images _ ts1 ts2 T1 T2).
  intros x _. rewrite I1, I2. reflexivity.
Qed.

Lemma successor_cons_swap (x y : Z) (r : list Z) (z : Z) :
  NoDup (x :: y :: r) ->
  cyclic_successor [x; y] (cyclic_successor (y :: r) z)
  = cyclic_successor (x :: y :: r) z.
Proof.
  intros Hnd. inversion Hnd as [|x' c' Hx Hc]; subst.
  assert (Hxy : x <> y) by (intros ->; apply Hx; left; reflexivity).
  rewrite swap_successor by assumption.
  assert (R : cyclic_successor (x :: y :: r) z
              = match (if x =? z then Some O
                       else option_map S (index Z.eqb (y :: r) z)) with
                | Some i => nth (succ_pos (S (S (length r))) i) (x :: y :: r) z
                | None => z
                end) by reflexivity.
  assert (L : cyclic_successor (y :: r) z
              = match index Z.eqb (y :: r) z with
                | Some i => nth (succ_pos (S (length r)) i) (y :: r) z
                | None => z
                end) by reflexivity.
  rewrite R. clear R.
  destruct (Z.eqb_spec x z) as [Exz|Exz].
  - subst z. rewrite (cyclic_successor_notin (y :: r) x Hx).
    rewrite Z.eqb_refl.
    rewrite succ_pos_inner by lia. reflexivity.
  - rewrite L. clear L.
    destruct (index Z.eqb (y :: r) z) as [i|] eqn:Ei; cbn [option_map].
    + pose proof (index_lt _ _ _ _ Ei) as Hi. cbn [length] in *.
      destruct (Nat.eq_dec (S i) (S (length r))) as [El|El].
      * rewrite (succ_pos_last (S (length r)) i El).
        rewrite (succ_pos_last (S (S (length r))) (S i)) by lia.
        cbn [nth].
        destruct (Z.eqb_spec y x); [congruence|].
        rewrite Z.eqb_refl. reflexivity.
      * rewrite (succ_pos_inner (S (length r)) i) by lia.
        rewrite (succ_pos_inner (S (S (length r))) (S i)) by lia.
        change (nth (S (S i)) (x :: y :: r) z) with (nth (S i) (y :: r) z).
        assert (Hin : In (nth (S i) (y :: r) z) (y :: r))
          by (apply nth_In; cbn [length]; lia).
        destruct (Z.eqb_spec (nth (S i) (y :: r) z) x) as [E|E];
          [rewrite E in Hin; contradiction|].
        destruct (Z.eqb_spec (nth (S i) (y :: r) z) y) as [E'|E']; [|reflexivity].
        exfalso. change y with (nth 0 (y :: r) z) in E' at 2.
        apply (proj1 (NoDup_nth (y :: r) z) Hc) in E'; cbn [length]; lia.
    + apply index_None in Ei.
      destruct (Z.eqb_spec z x); [congruence|].
      destruct (Z.eqb_spec z y) as [E|E]; [|reflexivity].
      exfalso. apply Ei. left. congruence.
Qed.

(** A cycle is the product of the transpositions of its consecutive
    elements. *)
Lemma cycle_transpositions_compose (c : list Z) (z : Z) :
  NoDup c -> compose_cycles (cycle_transpositions c) z = cyclic_successor c z.
Proof.
  induction c as [|x c IH]; intros Hnd; [reflexivity|].
  destruct c as [|y r].
  - unfold cyclic_successor. cbn [index cycle_transpositions compose_cycles fold_right].
    destruct (Z.eqb_spec x z) as [E|E]; [exact (eq_sym E)|reflexivity].
  - change (cycle_transpositions (x :: y :: r))
      with ([x; y] :: cycle_transpositions (y :: r)).
    change (compose_cycles ([x; y] :: cycle_transpositions (y :: r)) z)
      with (cyclic_successor [x; y] (compose_cycles (cycle_transpositions (y :: r)) z)).
    rewrite IH by (inversion Hnd; assumption).
    apply successor_cons_swap. assumption.
Qed.

Lemma cycle_transpositions_valid (n : Z) (c : list Z) :
  NoDup c -> (forall x, In x c -> 1 <= x <= n) ->
  Forall (is_transposition n) (cycle_transpositions c).
Proof.
  induction c as [|x c IH]; intros Hnd Hr; [constructor|].
  destruct c as [|y r]; [constructor|].
  change (cycle_transpositions (x :: y :: r))
    with ([x; y] :: cycle_transpositions (y :: r)).
  inversion Hnd as [|x' c' Hx Hc]; subst. constructor.
  - exists x, y. split; [reflexivity|]. split.
    + intros ->. apply Hx. left. reflexivity.
    + split; apply Hr; simpl; tauto.
  - apply IH; [assumption|]. intros z Hz. apply Hr. right. assumption.
Qed.

Lemma cycle_transpositions_length (c : list Z) :
  length (cycle_transpositions c) = pred (length c).
Proof.
  induction c as [|x c IH]; [reflexivity|].
  destruct c as [|y r]; [reflexivity|].
  change (cycle_transpositions (x :: y :: r))
    with ([x; y] :: cycle_transpositions (y :: r)).
  cbn [length] in *. rewrite IH. reflexivity.
Qed.

Lemma transpositions_compose (cs : list (list Z)) (z : Z) :
  Forall (@NoDup Z) cs ->
  compose_cycles (transpositions_of cs) z = compose_cycles cs z.
Proof.
  unfold transpositions_of. induction 1 as [|c cs Hc _ IH]; [reflexivity|].
  cbn [map concat]. rewrite compose_cycles_app, IH.
  apply cycle_transpositions_compose. assumption.
Qed.

Lemma transpositions_valid (n : Z) (cs : list (list Z)) :
  Forall (@NoDup Z) cs -> (forall x, In x (concat cs) -> 1 <= x <= n) ->
  Forall (is_transposition n) (transpositions_of cs).
Proof.
  unfold transpositions_of. induction 1 as [|c cs Hc _ IH]; intros Hr; [constructor|].
  cbn [map concat]. apply Forall_app. split.
  - apply cycle_transpositions_valid; [assumption|].
    intros x Hx. apply Hr. simpl. apply in_or_app. left. assumption.
  - apply IH. intros x Hx. apply Hr. simpl. apply in_or_app. right. assumption.
Qed.

Lemma len_even (c : list Z) : (len c mod 2 =? 0) = Nat.even (length c).
Proof.
  unfold len. rewrite Zmod_odd.
  assert (E : forall k, Z.odd (Z.of_nat k) = Nat.odd k /\ Z.even (Z.of_nat k) = Nat.even k).
  { induction k as [|k [IHo IHe]]; [split; reflexivity|].
    rewrite Nat2Z.inj_succ, Z.odd_succ, Z.even_succ, Nat.odd_succ, Nat.even_succ.
    split; assumption. }
  rewrite (proj1 (E (length c))), <- Nat.negb_odd.
  destruct (Nat.odd (length c)); reflexivity.
Qed.

Lemma transpositions_parity (cs : list (list Z)) :
  Forall (fun c => c <> []) cs ->
  Nat.odd (length (transpositions_of cs)) = Nat.odd (length (even_cycles cs)).
Proof.
  unfold transpositions_of, even_cycles.
  induction 1 as [|c cs Hc _ IH]; [reflexivity|].
  cbn [map concat filter]. rewrite length_app, Nat.odd_add, IH.
  rewrite cycle_transpositions_length, len_even.
  destruct c as [|x c]; [congruence|]. cbn [length pred].
  rewrite Nat.even_succ.
  destruct (Nat.odd (length c)); cbn [length xorb].
  - rewrite Nat.odd_succ, <- Nat.negb_odd.
    destruct (Nat.odd _); reflexivity.
  - destruct (Nat.odd _); reflexivity.
Qed.

Lemma sgn_formula (k : nat) :
  -2 * (Z.of_nat k mod 2) + 1 = if Nat.odd k then -1 else 1.
Proof.
  rewrite Zmod_odd.
  assert (E : forall j, Z.odd (Z.of_nat j) = Nat.odd j /\ Z.even (Z.of_nat j) = Nat.even j).
  { induction j as [|j [IHo IHe]]; [split; reflexivity|].
    rewrite Nat2Z.inj_succ, Z.odd_succ, Z.even_succ, Nat.odd_succ, Nat.even_succ.
    split; assumption. }
  rewrite (proj1 (E k)). destruct (Nat.odd k); reflexivity.
Qed.

Lemma pow_minus_one (k : nat) :
  (-1) ^ Z.of_nat k = if Nat.odd k then -1 else 1.
Proof.
  induction k as [|k IH]; [reflexivity|].
  rewrite Nat2Z.inj_succ, Z.pow_succ_r, IH by lia.
  rewrite Nat.odd_succ, <- Nat.negb_odd. destruct (Nat.odd k); reflexivity.
Qed.

Lemma sgn_evaluates (a : permutation) :
  well_formed a = true ->
  evaluates (fun fuel => sgn fuel a)
            (-2 * (len (even_cycles (simple_cycles a)) mod 2) + 1).
Proof.
  intros Hwf. unfold sgn.
  apply (evaluates_bind _ (fun _ cs =>
           Ok (-2 * (len (filter (fun x => len x mod 2 =? 0) cs) mod 2) + 1))
           (simple_cycles a)).
  - apply simple_cycles_evaluates. assumption.
  - apply evaluates_ret.
Qed.

(** A well-formed permutation is the product of the transpositions of its
    simplified cycles. *)
Lemma simple_cycles_product (a : permutation) :
  well_formed a = true -> product_of a (transpositions_of (simple_cycles a)).
Proof.
  intros Hwf. pose proof (simple_cycles_valid a Hwf) as Hv. split.
  - apply transpositions_valid; [apply valid_cycles_NoDup; assumption|].
    intros x Hx. rewrite <- (simple_cycles_size a Hwf).
    apply valid_cycles_range; assumption.
  - intros x. rewrite transpositions_compose by (apply valid_cycles_NoDup; assumption).
    apply compose_simple_cycles. assumption.
Qed.

(** * The claims *)

(** ** Construction *)

(** C1. On one or more non-empty cycles the constructor returns a table
    over [1 .. size], where [size] is the maximum integer of the cycles;
    the entry of each point [i] is obtained by applying the cycles from
    the rightmost argument to the leftmost, a cycle sending each of its
    elements to its cyclic successor ([(a b c)] sends [a] to [b], [b] to
    [c], [c] to [a]) and leaving the other points unchanged. *)
Theorem init_builds_table (cycles : list (list Z)) :
  cycles <> [] -> Forall (fun c => c <> []) cycles ->
  exists (p : permutation) (size : Z),
    __init__ cycles = Ok p /\
    is_max size (concat cycles) /\
    __len__ p = Z.max size 0 /\
    (forall i, 1 <= i <= size ->
       getitem (_lookup p) (i - 1) = Ok (fold_right cyclic_successor i cycles)) /\
    (forall c x, ~ In x c -> cyclic_successor c x = x) /\
    (forall a b c, a <> b -> b <> c -> a <> c ->
       cyclic_successor [a; b; c] a = b /\
       cyclic_successor [a; b; c] b = c /\
       cyclic_successor [a; b; c] c = a).
Proof.
  intros Hne Hall.
  exists {| _lookup := table_of cycles |}, (size_of cycles).
  split; [apply init_ok; assumption|].
  split; [apply size_of_spec; assumption|].
  split; [unfold __len__, len; simpl; rewrite table_of_length; lia|].
  split; [|split].
  - intros i Hi. simpl.
    replace (i - 1) with (Z.of_nat (Z.to_nat (i - 1))) by lia.
    rewrite (getitem_nonneg _ _ 0) by (rewrite table_of_length; lia).
    rewrite table_of_nth by assumption. reflexivity.
  - intros c x. apply cyclic_successor_notin.
  - intros a b c Hab Hbc Hac. unfold cyclic_successor. cbn [index].
    rewrite Z.eqb_refl.
    destruct (Z.eqb_spec a b) as [|_]; [contradiction|].
    destruct (Z.eqb_spec a c) as [|_]; [contradiction|].
    destruct (Z.eqb_spec b c) as [|_]; [contradiction|].
    rewrite !Z.eqb_refl. cbn. repeat split; reflexivity.
Qed.

Lemma init_builds_table_witness :
  exists (p : permutation) (size : Z),
    __init__ [[1; 2]; [5; 4; 3; 7]] = Ok p /\
    is_max size (concat [[1; 2]; [5; 4; 3; 7]]) /\
    __len__ p = Z.max size 0 /\
    (forall i, 1 <= i <= size ->
       getitem (_lookup p) (i - 1)
       = Ok (fold_right cyclic_successor i [[1; 2]; [5; 4; 3; 7]])) /\
    (forall c x, ~ In x c -> cyclic_successor c x = x) /\
    (forall a b c, a <> b -> b <> c -> a <> c ->
       cyclic_successor [a; b; c] a = b /\
       cyclic_successor [a; b; c] b = c /\
       cyclic_successor [a; b; c] c = a).
Proof.
  apply (init_builds_table [[1; 2]; [5; 4; 3; 7]]).
  - discriminate.
  - repeat constructor; discriminate.
Defined.

(** C7. The table that the constructor builds from one or more non-empty
    cycles of distinct positive integers holds every value of [1 .. n]
    exactly once, [n] being its length. *)
Theorem init_bijection (cycles : list (list Z)) :
  valid_cycles cycles = true ->
  exists p : permutation,
    __init__ cycles = Ok p /\
    well_formed p = true /\
    1 <= __len__ p /\
    (forall v, 1 <= v <= __len__ p -> count_occ Z.eq_dec (_lookup p) v = 1%nat) /\
    (forall v, In v (_lookup p) -> 1 <= v <= __len__ p) /\
    Permutation (_lookup p) (xrange 1 (__len__ p + 1)).
Proof.
  intros Hv. exists {| _lookup := table_of cycles |}.
  pose proof (table_of_well_formed cycles Hv) as Hwf.
  destruct (proj1 (well_formed_spec _) Hwf) as [Hlen [Hnd Hr]].
  assert (HP : Permutation (_lookup {| _lookup := table_of cycles |})
                 (xrange 1 (__len__ {| _lookup := table_of cycles |} + 1))).
  { apply NoDup_Permutation_bis.
    - assumption.
    - rewrite xrange_length. unfold __len__, len. lia.
    - intros v Hin. apply xrange_In. specialize (Hr v Hin). lia. }
  split; [apply (perm_valid cycles Hv)|].
  split; [assumption|]. split; [assumption|]. split; [|split; assumption].
  intros v Hin.
  rewrite (proj1 (Permutation_count_occ Z.eq_dec _ _) HP v).
  assert (Hx : In v (xrange 1 (__len__ {| _lookup := table_of cycles |} + 1)))
    by (apply xrange_In; lia).
  pose proof (proj1 (NoDup_count_occ Z.eq_dec _)
                (xrange_NoDup 1 (__len__ {| _lookup := table_of cycles |} + 1)) v) as Hle.
  apply (count_occ_In Z.eq_dec) in Hx. lia.
Qed.

Lemma init_bijection_witness :
  exists p : permutation,
    __init__ [[1; 2; 3]; [2; 3; 5]; [7]] = Ok p /\
    well_formed p = true /\
    1 <= __len__ p /\
    (forall v, 1 <= v <= __len__ p -> count_occ Z.eq_dec (_lookup p) v = 1%nat) /\
    (forall v, In v (_lookup p) -> 1 <= v <= __len__ p) /\
    Permutation (_lookup p) (xrange 1 (__len__ p + 1)).
Proof. apply (init_bijection [[1; 2; 3]; [2; 3; 5]; [7]]). reflexivity. Defined.

(** ** Application *)

Lemma call_out_of_range (a : permutation) (x : Z) :
  x < 1 - __len__ a \/ __len__ a < x ->
  __call__ a x = Raise (IndexError (str x ++ " not in permutation. Must be between 1 and "
                                    ++ str (__len__ a) ++ ".")%string).
Proof.
  intros H. unfold __call__.
  rewrite getitem_out by (unfold __len__ in H; lia). reflexivity.
Qed.

Lemma call_wraps (a : permutation) (x : Z) :
  1 - __len__ a <= x <= 0 ->
  __call__ a x = Ok (nth (Z.to_nat (x - 1 + __len__ a)) (_lookup a) 0).
Proof.
  intros H. unfold __call__, __len__ in *.
  rewrite (getitem_neg _ _ 0) by lia. reflexivity.
Qed.

(** C2, at the input where the code departs from it: on the permutation
    [(1 2 4)] the point [0] is answered with the image of [4], while [5]
    is refused with the message that gives the range [1 .. 4]. *)
Theorem call_zero_is_answered :
  exists a : permutation,
    perm [[1; 2; 4]] = Ok a /\
    __call__ a 0 = Ok 1 /\
    __call__ a 3 = Ok 3 /\
    __call__ a 5
    = Raise (IndexError "5 not in permutation. Must be between 1 and 4.").
Proof.
  exists {| _lookup := [2; 4; 3; 1] |}. repeat split; reflexivity.
Qed.

(** C10. On a permutation of size [n >= 2] every [p] with
    [-(n - 1) <= p <= 0] is answered without error with the entry at
    position [(p - 1) mod n] of the table; in particular [0] is answered
    with the image of [n]. *)
Theorem call_negative_wraps (a : permutation) (p : Z) :
  2 <= __len__ a -> - (__len__ a - 1) <= p <= 0 ->
  __call__ a p = Ok (nth (Z.to_nat ((p - 1) mod __len__ a)) (_lookup a) 0) /\
  __call__ a 0 = __call__ a (__len__ a) /\
  __call__ a 0 = Ok (image a (__len__ a)).
Proof.
  intros Hn Hp. split; [|split].
  - rewrite call_wraps by lia. do 3 f_equal.
    apply Z.mod_unique with (q := -1); lia.
  - rewrite call_wraps by lia.
    rewrite (call_in_range a (__len__ a)) by (unfold in_range; lia).
    rewrite image_in by (unfold in_range; lia). do 3 f_equal. lia.
  - rewrite call_wraps by lia.
    rewrite image_in by (unfold in_range; lia). do 3 f_equal. lia.
Qed.

Lemma call_negative_wraps_witness :
  __call__ {| _lookup := [2; 4; 3; 1] |} (-2)
  = Ok (nth (Z.to_nat ((-2 - 1) mod __len__ {| _lookup := [2; 4; 3; 1] |}))
          (_lookup {| _lookup := [2; 4; 3; 1] |}) 0) /\
  __call__ {| _lookup := [2; 4; 3; 1] |} 0
  = __call__ {| _lookup := [2; 4; 3; 1] |} (__len__ {| _lookup := [2; 4; 3; 1] |}) /\
  __call__ {| _lookup := [2; 4; 3; 1] |} 0
  = Ok (image {| _lookup := [2; 4; 3; 1] |} (__len__ {| _lookup := [2; 4; 3; 1] |})).
Proof.
  apply (call_negative_wraps {| _lookup := [2; 4; 3; 1] |} (-2)).
  - vm_compute. discriminate.
  - vm_compute. split; discriminate.
Defined.

(** ** Decomposition *)

Lemma keepb_contains (a : permutation) (c : list Z) :
  c <> [] ->
  keepb a true c = (1 <? len c) || existsb (Z.eqb (__len__ a)) c.
Proof.
  intros Hc. unfold keepb. cbn [negb orb].
  destruct c as [|x [|y c]]; [congruence| |].
  - cbn. rewrite orb_false_r. apply Z.eqb_sym.
  - assert (E : (1 <? len (x :: y :: c)) = true)
      by (apply Z.ltb_lt; unfold len; cbn [length]; lia).
    rewrite E. reflexivity.
Qed.

(** C5. With [simplify=True] the decomposition returns, in their canonical
    order, the disjoint cycles of length greater than 1 together with the
    cycle that contains the point [n], which is kept even when its length
    is 1; the other cycles of length 1 are left out. *)
Theorem getcycles_simplified (a : permutation) :
  well_formed a = true ->
  exists full : list (list Z),
    evaluates (fun fuel => _getcycles fuel a false) full /\
    decomposition a full /\
    canonical full /\
    evaluates (fun fuel => _getcycles fuel a true)
      (filter (fun c => (1 <? len c) || existsb (Z.eqb (__len__ a)) c) full).
Proof.
  intros Hwf. exists (full_cycles a).
  destruct (getcycles_spec a Hwf) as [Hdec _].
  split; [|split; [assumption|split; [apply full_cycles_canonical; assumption|]]].
  - pose proof (getcycles_evaluates a false Hwf) as H.
    rewrite filter_keepb_false in H. exact H.
  - rewrite <- (filter_ext_in (keepb a true)).
    + apply getcycles_evaluates. assumption.
    + intros c Hc. apply keepb_contains.
      destruct Hdec as [Hall _]. rewrite Forall_forall in Hall. apply (Hall c Hc).
Qed.

Lemma getcycles_simplified_witness :
  exists full : list (list Z),
    evaluates (fun fuel => _getcycles fuel {| _lookup := [2; 1; 6; 5; 4; 3; 7; 8; 9] |} false)
      full /\
    decomposition {| _lookup := [2; 1; 6; 5; 4; 3; 7; 8; 9] |} full /\
    canonical full /\
    evaluates (fun fuel => _getcycles fuel {| _lookup := [2; 1; 6; 5; 4; 3; 7; 8; 9] |} true)
      (filter (fun c => (1 <? len c)
                        || existsb (Z.eqb (__len__ {| _lookup := [2; 1; 6; 5; 4; 3; 7; 8; 9] |})) c)
         full).
Proof.
  apply (getcycles_simplified {| _lookup := [2; 1; 6; 5; 4; 3; 7; 8; 9] |}).
  reflexivity.
Defined.

(** ** Equality, multiplication and the round trip *)

(** C9. The constructor applied to the cycles that [repr] lists returns a
    permutation equal to the original one. *)
Theorem repr_round_trip (a : permutation) :
  well_formed a = true ->
  exists (cs : list (list Z)) (b : permutation),
    evaluates (fun fuel => _getcycles fuel a true) cs /\
    evaluates (fun fuel => __repr__ fuel a)
      ("perm(" ++ join ", " (map str_tuple cs) ++ ")")%string /\
    perm cs = Ok b /\
    evaluates (fun fuel => __eq__ fuel b a) true.
Proof.
  intros Hwf. exists (simple_cycles a), a.
  split; [apply simple_cycles_evaluates; assumption|]. split; [|split].
  - unfold __repr__.
    apply (evaluates_bind _ (fun _ cs =>
             Ok ("perm(" ++ join ", " (map str_tuple cs) ++ ")")%string) (simple_cycles a)).
    + apply simple_cycles_evaluates. assumption.
    + apply evaluates_ret.
  - apply perm_simple_cycles. assumption.
  - apply eq_refl_evaluates. assumption.
Qed.

Lemma repr_round_trip_witness :
  exists (cs : list (list Z)) (b : permutation),
    evaluates (fun fuel => _getcycles fuel {| _lookup := [2; 1; 7; 5; 4; 6; 3] |} true) cs /\
    evaluates (fun fuel => __repr__ fuel {| _lookup := [2; 1; 7; 5; 4; 6; 3] |})
      ("perm(" ++ join ", " (map str_tuple cs) ++ ")")%string /\
    perm cs = Ok b /\
    evaluates (fun fuel => __eq__ fuel b {| _lookup := [2; 1; 7; 5; 4; 6; 3] |}) true.
Proof. apply (repr_round_trip {| _lookup := [2; 1; 7; 5; 4; 6; 3] |}). reflexivity. Defined.

(** C8. Multiplication is associative up to the equality of canonical
    strings. *)
Theorem mul_associative (a b c : permutation) :
  well_formed a = true -> well_formed b = true -> well_formed c = true ->
  exists ab bc l r : permutation,
    evaluates (fun fuel => __mul__ fuel a b) ab /\
    evaluates (fun fuel => __mul__ fuel ab c) l /\
    evaluates (fun fuel => __mul__ fuel b c) bc /\
    evaluates (fun fuel => __mul__ fuel a bc) r /\
    evaluates (fun fuel => __eq__ fuel l r) true.
Proof.
  intros Ha Hb Hc.
  pose proof (mul_well_formed a b Ha Hb) as Hab.
  pose proof (mul_well_formed b c Hb Hc) as Hbc.
  exists (mul a b), (mul b c), (mul (mul a b) c), (mul a (mul b c)).
  split; [apply mul_evaluates; assumption|].
  split; [apply mul_evaluates; assumption|].
  split; [apply mul_evaluates; assumption|].
  split; [apply mul_evaluates; assumption|].
  assert (E : mul (mul a b) c = mul a (mul b c)).
  { apply perm_ext.
    - rewrite !mul_len by assumption. lia.
    - intros x. rewrite !mul_image by assumption. reflexivity. }
  rewrite E. apply eq_refl_evaluates. apply mul_well_formed; assumption.
Qed.

Lemma mul_associative_witness :
  exists ab bc l r : permutation,
    evaluates (fun fuel => __mul__ fuel {| _lookup := [2; 1; 3] |} {| _lookup := [1; 3; 2] |}) ab /\
    evaluates (fun fuel => __mul__ fuel ab {| _lookup := [2; 3; 4; 1] |}) l /\
    evaluates (fun fuel => __mul__ fuel {| _lookup := [1; 3; 2] |} {| _lookup := [2; 3; 4; 1] |}) bc /\
    evaluates (fun fuel => __mul__ fuel {| _lookup := [2; 1; 3] |} bc) r /\
    evaluates (fun fuel => __eq__ fuel l r) true.
Proof.
  apply (mul_associative {| _lookup := [2; 1; 3] |} {| _lookup := [1; 3; 2] |}
           {| _lookup := [2; 3; 4; 1] |}); reflexivity.
Defined.

(** ** Powers *)

(** C4 as stated fails at the power 0: [perm((1, 2, 3)) ** 0] builds a
    permutation from no cycle at all, and the constructor raises instead of
    returning the identity. *)
Lemma pow_zero_raises :
  exists a : permutation,
    perm [[1; 2; 3]] = Ok a /\
    raises (fun fuel => __pow__ fuel a 0)
           (ValueError "max() arg is an empty sequence") /\
    ~ exists p : permutation, evaluates (fun fuel => __pow__ fuel a 0) p.
Proof.
  exists {| _lookup := [2; 3; 1] |}. split; [reflexivity|].
  assert (R : raises (fun fuel => __pow__ fuel {| _lookup := [2; 3; 1] |} 0)
                     (ValueError "max() arg is an empty sequence"))
    by (apply pow_raises; [reflexivity|lia]).
  split; [assumption|].
  intros [p [f1 H1]]. destruct R as [f2 H2].
  specialize (H1 (Nat.max f1 f2) (Nat.le_max_l _ _)).
  specialize (H2 (Nat.max f1 f2) (Nat.le_max_r _ _)).
  congruence.
Qed.

(** C4, amended. For every positive [k], [a ** k] returns the permutation
    that the constructor builds from the simplified cycle list of [a]
    repeated [k] times; and [perm((1, 2, 3)) ** 3] equals [perm((3,))]. *)
Theorem pow_repeats_cycles (a : permutation) (k : Z) :
  well_formed a = true -> 1 <= k ->
  (exists (cs : list (list Z)) (p : permutation),
     evaluates (fun fuel => _getcycles fuel a true) cs /\
     perm (list_mul cs k) = Ok p /\
     evaluates (fun fuel => __pow__ fuel a k) p) /\
  (exists a3 p3 i3 : permutation,
     perm [[1; 2; 3]] = Ok a3 /\
     evaluates (fun fuel => __pow__ fuel a3 3) p3 /\
     perm [[3]] = Ok i3 /\
     evaluates (fun fuel => __eq__ fuel p3 i3) true).
Proof.
  intros Hwf Hk. split.
  - exists (simple_cycles a), (pow a k).
    split; [apply simple_cycles_evaluates; assumption|].
    split; [apply perm_valid; apply pow_cycles_valid; assumption|].
    apply pow_evaluates; assumption.
  - exists {| _lookup := [2; 3; 1] |}, {| _lookup := [1; 2; 3] |}, {| _lookup := [1; 2; 3] |}.
    split; [reflexivity|]. split; [|split; [reflexivity|]].
    + apply (monotone_evaluates _ 10); [apply pow_monotone|reflexivity].
    + apply (monotone_evaluates _ 10); [apply eq_monotone|reflexivity].
Qed.

Lemma pow_repeats_cycles_witness :
  (exists (cs : list (list Z)) (p : permutation),
     evaluates (fun fuel => _getcycles fuel {| _lookup := [2; 3; 1; 5; 4] |} true) cs /\
     perm (list_mul cs 2) = Ok p /\
     evaluates (fun fuel => __pow__ fuel {| _lookup := [2; 3; 1; 5; 4] |} 2) p) /\
  (exists a3 p3 i3 : permutation,
     perm [[1; 2; 3]] = Ok a3 /\
     evaluates (fun fuel => __pow__ fuel a3 3) p3 /\
     perm [[3]] = Ok i3 /\
     evaluates (fun fuel => __eq__ fuel p3 i3) true).
Proof.
  apply (pow_repeats_cycles {| _lookup := [2; 3; 1; 5; 4] |} 2).
  - reflexivity.
  - lia.
Defined.

(** ** Order *)

Lemma order_spec_from_det (a r : permutation) (c k k' : Z) :
  order_spec_from a r c k -> order_spec_from a r c k' -> k = k'.
Proof.
  intros H. revert k'.
  induction H as [r c Heq|r r' c k Hne Hmul Hrec IH]; intros k' H'.
  - inversion H' as [r0 c0 Heq'|r0 r0' c0 k0 Hne' Hmul' Hrec']; subst.
    + reflexivity.
    + pose proof (evaluates_det _ _ _ Heq Hne'). discriminate.
  - inversion H' as [r0 c0 Heq'|r0 r0' c0 k0 Hne' Hmul' Hrec']; subst.
    + pose proof (evaluates_det _ _ _ Hne Heq'). discriminate.
    + rewrite (evaluates_det _ _ _ Hmul' Hmul) in Hrec'. apply IH. assumption.
Qed.

Lemma order_spec_det (a : permutation) (k k' : Z) :
  order_spec a k -> order_spec a k' -> k = k'.
Proof.
  intros [r [Hr H]] [r' [Hr' H']].
  rewrite (evaluates_det _ _ _ Hr' Hr) in H'.
  apply (order_spec_from_det a r 1); assumption.
Qed.

(** C3. The order operation returns the count that the described
    algorithm computes: [result = a * a], [count = 1]; while [result] is
    not equal to [a], [result = result * a] and [count] is incremented.
    The order of [perm((1, 3), (2, 5), (7, 4, 6))] is 6. *)
Theorem order_follows_algorithm (a : permutation) :
  well_formed a = true ->
  (exists k : Z,
     1 <= k /\
     evaluates (fun fuel => order fuel a) k /\
     order_spec a k /\
     forall k' : Z, order_spec a k' -> k' = k) /\
  (exists b : permutation,
     perm [[1; 3]; [2; 5]; [7; 4; 6]] = Ok b /\
     evaluates (fun fuel => order fuel b) 6).
Proof.
  intros Hwf. split.
  - destruct (order_evaluates a Hwf) as [k [Hk [Hev Hspec]]].
    exists k. repeat split; try assumption.
    intros k' H'. apply (order_spec_det a); assumption.
  - exists {| _lookup := [3; 5; 1; 6; 2; 7; 4] |}. split; [reflexivity|].
    apply (monotone_evaluates _ 20); [apply order_monotone|vm_compute; reflexivity].
Qed.

Lemma order_follows_algorithm_witness :
  (exists k : Z,
     1 <= k /\
     evaluates (fun fuel => order fuel {| _lookup := [3; 5; 1; 6; 2; 7; 4] |}) k /\
     order_spec {| _lookup := [3; 5; 1; 6; 2; 7; 4] |} k /\
     forall k' : Z, order_spec {| _lookup := [3; 5; 1; 6; 2; 7; 4] |} k' -> k' = k) /\
  (exists b : permutation,
     perm [[1; 3]; [2; 5]; [7; 4; 6]] = Ok b /\
     evaluates (fun fuel => order fuel b) 6).
Proof.
  apply (order_follows_algorithm {| _lookup := [3; 5; 1; 6; 2; 7; 4] |}). reflexivity.
Defined.

(** ** Sign *)

(** C6. [sgn] returns [(-1)] to the number of cycles of even length in the
    simplified decomposition; that value is [-1] exactly when the
    permutation is odd and [+1] exactly when it is even.  The signs of
    [perm((4,))], [perm((1, 3))], [perm((4,)) ** 2] and
    [perm((4,)) * perm((1, 3))] are [+1], [-1], [+1] and [-1]. *)
Theorem sgn_is_parity (a : permutation) :
  well_formed a = true ->
  (exists (cs : list (list Z)) (v : Z),
     evaluates (fun fuel => _getcycles fuel a true) cs /\
     evaluates (fun fuel => sgn fuel a) v /\
     v = (-1) ^ len (even_cycles cs) /\
     (v = -1 <-> odd_permutation a) /\
     (v = 1 <-> even_permutation a)) /\
  (exists a4 b sq ab : permutation,
     perm [[4]] = Ok a4 /\
     perm [[1; 3]] = Ok b /\
     evaluates (fun fuel => __pow__ fuel a4 2) sq /\
     evaluates (fun fuel => __mul__ fuel a4 b) ab /\
     evaluates (fun fuel => sgn fuel a4) 1 /\
     evaluates (fun fuel => sgn fuel b) (-1) /\
     evaluates (fun fuel => sgn fuel sq) 1 /\
     evaluates (fun fuel => sgn fuel ab) (-1)).
Proof.
  intros Hwf. split.
  - exists (simple_cycles a), (-2 * (len (even_cycles (simple_cycles a)) mod 2) + 1).
    split; [apply simple_cycles_evaluates; assumption|].
    split; [apply sgn_evaluates; assumption|].
    pose proof (simple_cycles_product a Hwf) as HT.
    destruct (valid_cycles_nonempty _ (simple_cycles_valid a Hwf)) as [_ Hne].
    pose proof (transpositions_parity (simple_cycles a) Hne) as HP.
    change (len (even_cycles (simple_cycles a)))
      with (Z.of_nat (length (even_cycles (simple_cycles a)))).
    rewrite sgn_formula, pow_minus_one.
    split; [reflexivity|]. split; split.
    + intros Hv. exists (transpositions_of (simple_cycles a)).
      split; [assumption|]. rewrite HP.
      destruct (Nat.odd (length (even_cycles (simple_cycles a)))); [reflexivity|discriminate].
    + intros [ts [Hts Hodd]].
      rewrite <- HP, <- (product_parity a ts _ Hwf Hts HT), Hodd. reflexivity.
    + intros Hv. exists (transpositions_of (simple_cycles a)).
      split; [assumption|]. rewrite <- Nat.negb_odd, HP.
      destruct (Nat.odd (length (even_cycles (simple_cycles a)))); [discriminate|reflexivity].
    + intros [ts [Hts Heven]].
      rewrite <- Nat.negb_odd in Heven.
      rewrite <- HP, <- (product_parity a ts _ Hwf Hts HT).
      destruct (Nat.odd (length ts)); [discriminate|reflexivity].
  - exists {| _lookup := [1; 2; 3; 4] |}, {| _lookup := [3; 2; 1] |},
           {| _lookup := [1; 2; 3; 4] |}, {| _lookup := [3; 2; 1; 4] |}.
    split; [reflexivity|]. split; [reflexivity|].
    split; [apply (monotone_evaluates _ 10); [apply pow_monotone|reflexivity]|].
    split; [apply (monotone_evaluates _ 10); [apply mul_monotone|reflexivity]|].
    repeat split; apply (monotone_evaluates _ 10); try apply sgn_monotone; reflexivity.
Qed.

Lemma sgn_is_parity_witness :
  (exists (cs : list (list Z)) (v : Z),
     evaluates (fun fuel => _getcycles fuel {| _lookup := [2; 3; 1; 5; 4] |} true) cs /\
     evaluates (fun fuel => sgn fuel {| _lookup := [2; 3; 1; 5; 4] |}) v /\
     v = (-1) ^ len (even_cycles cs) /\
     (v = -1 <-> odd_permutation {| _lookup := [2; 3; 1; 5; 4] |}) /\
     (v = 1 <-> even_permutation {| _lookup := [2; 3; 1; 5; 4] |})) /\
  (exists a4 b sq ab : permutation,
     perm [[4]] = Ok a4 /\
     perm [[1; 3]] = Ok b /\
     evaluates (fun fuel => __pow__ fuel a4 2) sq /\
     evaluates (fun fuel => __mul__ fuel a4 b) ab /\
     evaluates (fun fuel => sgn fuel a4) 1 /\
     evaluates (fun fuel => sgn fuel b) (-1) /\
     evaluates (fun fuel => sgn fuel sq) 1 /\
     evaluates (fun fuel => sgn fuel ab) (-1)).
Proof. apply (sgn_is_parity {| _lookup := [2; 3; 1; 5; 4] |}). reflexivity. Defined.

(** * Further properties *)

(** ** The constructor: errors and degenerate input *)

Lemma mapM_py_max_raises (cycles : list (list Z)) :
  In [] cycles ->
  mapM py_max cycles = Raise (ValueError "max() arg is an empty sequence").
Proof.
  induction cycles as [|c cs IH]; intros Hin; [contradiction|].
  cbn [mapM]. destruct c as [|x c]; [reflexivity|].
  cbn [py_max bind]. rewrite IH; [reflexivity|].
  destruct Hin as [H|H]; [discriminate|assumption].
Qed.

(** X1. The constructor returns a permutation exactly when it is given at
    least one cycle and none of them is empty; otherwise it raises the
    [ValueError] of [max]. *)
Theorem init_fails_iff (cycles : list (list Z)) :
  ((exists p, __init__ cycles = Ok p) <-> cycles <> [] /\ ~ In [] cycles) /\
  (__init__ cycles = Raise (ValueError "max() arg is an empty sequence")
   <-> cycles = [] \/ In [] cycles).
Proof.
  assert (D : cycles = [] \/ In [] cycles \/ (cycles <> [] /\ ~ In [] cycles)).
  { destruct cycles as [|c cs]; [left; reflexivity|].
    destruct (in_dec (list_eq_dec Z.eq_dec) [] (c :: cs)) as [H|H].
    - right. left. assumption.
    - right. right. split; [discriminate|assumption]. }
  assert (F : cycles = [] \/ In [] cycles ->
              __init__ cycles = Raise (ValueError "max() arg is an empty sequence")).
  { intros [->|H]; [reflexivity|].
    unfold __init__. rewrite (mapM_py_max_raises cycles H). reflexivity. }
  assert (G : cycles <> [] /\ ~ In [] cycles ->
              __init__ cycles = Ok {| _lookup := table_of cycles |}).
  { intros [Hne Hin]. apply init_ok; [assumption|].
    apply Forall_forall. intros c Hc ->. contradiction. }
  split; split.
  - intros [p Hp]. destruct D as [H|[H|H]]; [| |assumption];
      rewrite F in Hp by tauto; discriminate.
  - intros H. eexists. apply G. assumption.
  - intros H. destruct D as [H'|[H'|H']]; [tauto|tauto|].
    rewrite (G H') in H. discriminate.
  - apply F.
Qed.

(** X2. When no integer of the cycles is positive the constructor returns
    the empty table; the canonical string of that permutation is empty,
    and multiplying it by itself raises the [ValueError] of [max]. *)
Theorem init_nonpositive (cycles : list (list Z)) :
  cycles <> [] -> ~ In [] cycles ->
  (forall x, In x (concat cycles) -> x <= 0) ->
  __init__ cycles = Ok {| _lookup := [] |} /\
  evaluates (fun fuel => __str__ fuel {| _lookup := [] |}) EmptyString /\
  raises (fun fuel => __mul__ fuel {| _lookup := [] |} {| _lookup := [] |})
         (ValueError "max() arg is an empty sequence").
Proof.
  intros Hne Hin Hle.
  assert (Hall : Forall (fun c => c <> []) cycles)
    by (apply Forall_forall; intros c Hc ->; contradiction).
  split; [|split].
  - rewrite (init_ok cycles Hne Hall). f_equal. f_equal.
    destruct (size_of_spec cycles Hne Hall) as [Hs _].
    specialize (Hle _ Hs). unfold table_of, xrange.
    replace (Z.to_nat (size_of cycles + 1 - 1)) with O by lia. reflexivity.
  - exists 1%nat. intros [|fuel] Hf; [lia|]. reflexivity.
  - exists 1%nat. intros [|fuel] Hf; [lia|]. reflexivity.
Qed.

Lemma init_nonpositive_witness :
  __init__ [[0; -3]; [-1]] = Ok {| _lookup := [] |} /\
  evaluates (fun fuel => __str__ fuel {| _lookup := [] |}) EmptyString /\
  raises (fun fuel => __mul__ fuel {| _lookup := [] |} {| _lookup := [] |})
         (ValueError "max() arg is an empty sequence").
Proof.
  apply (init_nonpositive [[0; -3]; [-1]]).
  - discriminate.
  - intros [H|[H|[]]]; discriminate.
  - intros x [H|[H|[H|[]]]]; subst; lia.
Defined.

(** ** Application on every integer *)

(** X3. [self(x)] answers every [x] of [1 - n .. n] with the entry at
    position [(x - 1) mod n], and raises the [IndexError] that names [x]
    and [n] for every other integer. *)
Theorem call_total (a : permutation) (x : Z) :
  __call__ a x
  = if (1 - __len__ a <=? x) && (x <=? __len__ a)
    then Ok (nth (Z.to_nat ((x - 1) mod __len__ a)) (_lookup a) 0)
    else Raise (IndexError (str x ++ " not in permutation. Must be between 1 and "
                            ++ str (__len__ a) ++ ".")%string).
Proof.
  destruct (Z.leb_spec (1 - __len__ a) x) as [H1|H1];
    [destruct (Z.leb_spec x (__len__ a)) as [H2|H2]|]; cbn [andb].
  - destruct (Z_le_gt_dec 1 x) as [Hp|Hp].
    + rewrite (call_in_range a x) by (unfold in_range; lia).
      rewrite image_in by (unfold in_range; lia).
      rewrite Z.mod_small by lia. reflexivity.
    + rewrite call_wraps by lia. do 3 f_equal.
      apply Z.mod_unique with (q := -1); lia.
  - apply call_out_of_range. lia.
  - apply call_out_of_range. lia.
Qed.

(** ** Multiplication and powers as maps *)

(** X4. The product [a * b] of two well-formed permutations is again
    well-formed, its length is the larger of the two lengths, and it sends
    every point [x] of its range to the image under [a] of the image of
    [x] under [b], a point beyond the length of a factor being left
    where it is by that factor. *)
Theorem mul_is_composition (a b : permutation) :
  well_formed a = true -> well_formed b = true ->
  exists ab : permutation,
    evaluates (fun fuel => __mul__ fuel a b) ab /\
    well_formed ab = true /\
    __len__ ab = Z.max (__len__ a) (__len__ b) /\
    forall x, 1 <= x <= __len__ ab -> __call__ ab x = Ok (image a (image b x)).
Proof.
  intros Ha Hb. exists (mul a b).
  split; [apply mul_evaluates; assumption|].
  split; [apply mul_well_formed; assumption|].
  split; [apply mul_len; assumption|].
  intros x Hx. rewrite call_in_range by exact Hx.
  rewrite mul_image by assumption. reflexivity.
Qed.

Lemma mul_is_composition_witness :
  exists ab : permutation,
    evaluates (fun fuel => __mul__ fuel {| _lookup := [2; 1; 3] |} {| _lookup := [1; 3; 2; 5; 4] |})
      ab /\
    well_formed ab = true /\
    __len__ ab = Z.max (__len__ {| _lookup := [2; 1; 3] |})
                       (__len__ {| _lookup := [1; 3; 2; 5; 4] |}) /\
    forall x, 1 <= x <= __len__ ab ->
      __call__ ab x
      = Ok (image {| _lookup := [2; 1; 3] |} (image {| _lookup := [1; 3; 2; 5; 4] |} x)).
Proof.
  apply (mul_is_composition {| _lookup := [2; 1; 3] |} {| _lookup := [1; 3; 2; 5; 4] |});
    reflexivity.
Defined.

(** X5. For a positive [k] the power [a ** k] of a well-formed permutation
    is well-formed, has the length of [a], and sends every point to the
    result of applying [a] to it [k] times. *)
Theorem pow_is_iteration (a : permutation) (k : Z) :
  well_formed a = true -> 1 <= k ->
  exists p : permutation,
    evaluates (fun fuel => __pow__ fuel a k) p /\
    well_formed p = true /\
    __len__ p = __len__ a /\
    forall x, 1 <= x <= __len__ a ->
      __call__ p x = Ok (Nat.iter (Z.to_nat k) (image a) x).
Proof.
  intros Ha Hk. exists (pow a k).
  split; [apply pow_evaluates; assumption|].
  split; [apply pow_well_formed; assumption|].
  split; [apply pow_len; assumption|].
  intros x Hx.
  rewrite call_in_range by (unfold in_range; rewrite pow_len by assumption; exact Hx).
  rewrite pow_image by assumption. reflexivity.
Qed.

Lemma pow_is_iteration_witness :
  exists p : permutation,
    evaluates (fun fuel => __pow__ fuel {| _lookup := [2; 3; 1; 5; 4] |} 4) p /\
    well_formed p = true /\
    __len__ p = __len__ {| _lookup := [2; 3; 1; 5; 4] |} /\
    forall x, 1 <= x <= __len__ {| _lookup := [2; 3; 1; 5; 4] |} ->
      __call__ p x = Ok (Nat.iter (Z.to_nat 4) (image {| _lookup := [2; 3; 1; 5; 4] |}) x).
Proof.
  apply (pow_is_iteration {| _lookup := [2; 3; 1; 5; 4] |} 4).
  - reflexivity.
  - lia.
Defined.

Lemma pow_one (a : permutation) : well_formed a = true -> pow a 1 = a.
Proof.
  intros Ha. apply perm_ext.
  - apply pow_len; [assumption|lia].
  - intros x. rewrite pow_image by (try assumption; lia). reflexivity.
Qed.

Lemma pow_add (a : permutation) (m n : Z) :
  well_formed a = true -> 1 <= m -> 1 <= n ->
  pow a (m + n) = mul (pow a m) (pow a n).
Proof.
  intros Ha Hm Hn.
  pose proof (pow_well_formed a Ha m Hm) as Wm.
  pose proof (pow_well_formed a Ha n Hn) as Wn.
  apply perm_ext.
  - rewrite mul_len, !pow_len by (try assumption; lia). lia.
  - intros x. rewrite mul_image, !pow_image by (try assumption; lia).
    replace (Z.to_nat (m + n)) with (Z.to_nat m + Z.to_nat n)%nat by lia.
    apply orbit_add.
Qed.

Lemma pow_two (a : permutation) : well_formed a = true -> pow a 2 = mul a a.
Proof.
  intros Ha. change 2 with (1 + 1).
  rewrite pow_add by (try assumption; lia).
  rewrite pow_one by assumption. reflexivity.
Qed.

(** X6. Powers agree with multiplication: for a well-formed [a] and
    positive [m] and [n], [a ** 1 == a], [a ** 2 == a * a] and
    [a ** (m + n) == (a ** m) * (a ** n)] all return [True]. *)
Theorem pow_consistent (a : permutation) (m n : Z) :
  well_formed a = true -> 1 <= m -> 1 <= n ->
  (exists p1, evaluates (fun fuel => __pow__ fuel a 1) p1 /\
              evaluates (fun fuel => __eq__ fuel p1 a) true) /\
  (exists p2 aa, evaluates (fun fuel => __pow__ fuel a 2) p2 /\
                 evaluates (fun fuel => __mul__ fuel a a) aa /\
                 evaluates (fun fuel => __eq__ fuel p2 aa) true) /\
  (exists pm pn pmn prod,
     evaluates (fun fuel => __pow__ fuel a m) pm /\
     evaluates (fun fuel => __pow__ fuel a n) pn /\
     evaluates (fun fuel => __pow__ fuel a (m + n)) pmn /\
     evaluates (fun fuel => __mul__ fuel pm pn) prod /\
     evaluates (fun fuel => __eq__ fuel pmn prod) true).
Proof.
  intros Ha Hm Hn. split; [|split].
  - exists (pow a 1). split; [apply pow_evaluates; [assumption|lia]|].
    rewrite pow_one by assumption. apply eq_refl_evaluates. assumption.
  - exists (pow a 2), (mul a a).
    split; [apply pow_evaluates; [assumption|lia]|].
    split; [apply mul_evaluates; assumption|].
    rewrite pow_two by assumption. apply eq_refl_evaluates.
    apply mul_well_formed; assumption.
  - pose proof (pow_well_formed a Ha m Hm) as Wm.
    pose proof (pow_well_formed a Ha n Hn) as Wn.
    exists (pow a m), (pow a n), (pow a (m + n)), (mul (pow a m) (pow a n)).
    split; [apply pow_evaluates; assumption|].
    split; [apply pow_evaluates; assumption|].
    split; [apply pow_evaluates; [assumption|lia]|].
    split; [apply mul_evaluates; assumption|].
    rewrite pow_add by assumption. apply eq_refl_evaluates.
    apply mul_well_formed; assumption.
Qed.

Lemma pow_consistent_witness :
  (exists p1, evaluates (fun fuel => __pow__ fuel {| _lookup := [2; 3; 1; 5; 4] |} 1) p1 /\
              evaluates (fun fuel => __eq__ fuel p1 {| _lookup := [2; 3; 1; 5; 4] |}) true) /\
  (exists p2 aa,
     evaluates (fun fuel => __pow__ fuel {| _lookup := [2; 3; 1; 5; 4] |} 2) p2 /\
     evaluates (fun fuel => __mul__ fuel {| _lookup := [2; 3; 1; 5; 4] |}
                                         {| _lookup := [2; 3; 1; 5; 4] |}) aa /\
     evaluates (fun fuel => __eq__ fuel p2 aa) true) /\
  (exists pm pn pmn prod,
     evaluates (fun fuel => __pow__ fuel {| _lookup := [2; 3; 1; 5; 4] |} 2) pm /\
     evaluates (fun fuel => __pow__ fuel {| _lookup := [2; 3; 1; 5; 4] |} 3) pn /\
     evaluates (fun fuel => __pow__ fuel {| _lookup := [2; 3; 1; 5; 4] |} (2 + 3)) pmn /\
     evaluates (fun fuel => __mul__ fuel pm pn) prod /\
     evaluates (fun fuel => __eq__ fuel pmn prod) true).
Proof.
  apply (pow_consistent {| _lookup := [2; 3; 1; 5; 4] |} 2 3).
  - reflexivity.
  - lia.
  - lia.
Defined.

(** ** The sign *)

Lemma is_transposition_le (n n' : Z) (t : list Z) :
  n <= n' -> is_transposition n t -> is_transposition n' t.
Proof.
  intros Hle [x [y [E [Hxy [Hx Hy]]]]]. exists x, y.
  split; [assumption|]. split; [assumption|]. lia.
Qed.

Lemma product_of_mul (a b : permutation) (ta tb : list (list Z)) :
  well_formed a = true -> well_formed b = true ->
  product_of a ta -> product_of b tb -> product_of (mul a b) (ta ++ tb).
Proof.
  intros Ha Hb [Ta Ia] [Tb Ib]. split.
  - rewrite mul_len by assumption. apply Forall_app. split.
    + eapply Forall_impl; [|exact Ta]. intros t. apply is_transposition_le. lia.
    + eapply Forall_impl; [|exact Tb]. intros t. apply is_transposition_le. lia.
  - intros x. rewrite compose_cycles_app, Ib, Ia, mul_image by assumption. reflexivity.
Qed.

Lemma sgn_value_parity (a : permutation) (ts : list (list Z)) :
  well_formed a = true -> product_of a ts ->
  -2 * (len (even_cycles (simple_cycles a)) mod 2) + 1
  = if Nat.odd (length ts) then -1 else 1.
Proof.
  intros Ha Hts.
  change (len (even_cycles (simple_cycles a)))
    with (Z.of_nat (length (even_cycles (simple_cycles a)))).
  rewrite sgn_formula.
  destruct (valid_cycles_nonempty _ (simple_cycles_valid a Ha)) as [_ Hne].
  rewrite <- (transpositions_parity (simple_cycles a) Hne).
  rewrite (product_parity a _ ts Ha (simple_cycles_product a Ha) Hts). reflexivity.
Qed.

(** X7. The sign is multiplicative: for well-formed [a] and [b],
    [(a * b).sgn] is the product of [a.sgn] and [b.sgn]. *)
Theorem sgn_multiplicative (a b : permutation) :
  well_formed a = true -> well_formed b = true ->
  exists (ab : permutation) (sa sb sab : Z),
    evaluates (fun fuel => __mul__ fuel a b) ab /\
    evaluates (fun fuel => sgn fuel a) sa /\
    evaluates (fun fuel => sgn fuel b) sb /\
    evaluates (fun fuel => sgn fuel ab) sab /\
    sab = sa * sb.
Proof.
  intros Ha Hb. pose proof (mul_well_formed a b Ha Hb) as Hab.
  exists (mul a b),
    (-2 * (len (even_cycles (simple_cycles a)) mod 2) + 1),
    (-2 * (len (even_cycles (simple_cycles b)) mod 2) + 1),
    (-2 * (len (even_cycles (simple_cycles (mul a b))) mod 2) + 1).
  split; [apply mul_evaluates; assumption|].
  split; [apply sgn_evaluates; assumption|].
  split; [apply sgn_evaluates; assumption|].
  split; [apply sgn_evaluates; assumption|].
  pose proof (simple_cycles_product a Ha) as Pa.
  pose proof (simple_cycles_product b Hb) as Pb.
  rewrite (sgn_value_parity a _ Ha Pa), (sgn_value_parity b _ Hb Pb).
  rewrite (sgn_value_parity (mul a b) _ Hab (product_of_mul a b _ _ Ha Hb Pa Pb)).
  rewrite length_app, Nat.odd_add.
  destruct (Nat.odd (length (transpositions_of (simple_cycles a)))),
           (Nat.odd (length (transpositions_of (simple_cycles b)))); reflexivity.
Qed.

Lemma sgn_multiplicative_witness :
  exists (ab : permutation) (sa sb sab : Z),
    evaluates (fun fuel => __mul__ fuel {| _lookup := [2; 1; 3] |} {| _lookup := [1; 3; 2; 5; 4] |})
      ab /\
    evaluates (fun fuel => sgn fuel {| _lookup := [2; 1; 3] |}) sa /\
    evaluates (fun fuel => sgn fuel {| _lookup := [1; 3; 2; 5; 4] |}) sb /\
    evaluates (fun fuel => sgn fuel ab) sab /\
    sab = sa * sb.
Proof.
  apply (sgn_multiplicative {| _lookup := [2; 1; 3] |} {| _lookup := [1; 3; 2; 5; 4] |});
    reflexivity.
Defined.

(** X8. Whatever the table, when [sgn] returns, it returns [1] or [-1]. *)
Theorem sgn_is_unit (fuel : nat) (a : permutation) (v : Z) :
  sgn fuel a = Ok v -> v = 1 \/ v = -1.
Proof.
  unfold sgn. intros H.
  destruct (_getcycles fuel a true) as [cs| |]; try discriminate H.
  change (Ok (-2 * (len (even_cycles cs) mod 2) + 1) = Ok v) in H.
  assert (E : v = -2 * (len (even_cycles cs) mod 2) + 1) by congruence.
  pose proof (Z.mod_pos_bound (len (even_cycles cs)) 2 ltac:(lia)).
  lia.
Qed.

Lemma sgn_is_unit_witness : -1 = 1 \/ -1 = -1.
Proof. apply (sgn_is_unit 10 {| _lookup := [3; 2; 1] |} (-1)). reflexivity. Defined.

(** ** Canonical strings identify permutations *)

Lemma string_all_app (P : ascii -> Prop) (s1 s2 : string) :
  string_all P (s1 ++ s2)%string <-> string_all P s1 /\ string_all P s2.
Proof.
  induction s1 as [|c s1 IH]; simpl; [tauto|]. rewrite IH. tauto.
Qed.

Lemma string_app_assoc (s1 s2 s3 : string) :
  ((s1 ++ s2) ++ s3 = s1 ++ (s2 ++ s3))%string.
Proof. induction s1 as [|c s1 IH]; simpl; [reflexivity|]. rewrite IH. reflexivity. Qed.

Lemma string_app_nil_r (s : string) : (s ++ "" = s)%string.
Proof. induction s as [|c s IH]; simpl; [reflexivity|]. rewrite IH. reflexivity. Qed.

(** A string without the character [c] is cut at the first [c] that
    follows it. *)
Lemma split_at_separator (c : ascii) (s1 s2 r1 r2 : string) :
  string_all (fun x => x <> c) s1 -> string_all (fun x => x <> c) s2 ->
  (s1 ++ String c r1 = s2 ++ String c r2)%string -> s1 = s2 /\ r1 = r2.
Proof.
  revert s2. induction s1 as [|d s1 IH]; intros [|e s2] H1 H2 E; simpl in *.
  - injection E as E. split; [reflexivity|assumption].
  - injection E as Ec _. destruct H2 as [H2 _]. congruence.
  - injection E as Ec _. destruct H1 as [H1 _]. congruence.
  - injection E as Ec E. destruct (IH s2 (proj2 H1) (proj2 H2) E) as [-> ->].
    subst. split; reflexivity.
Qed.

Lemma no_separator (c : ascii) (s s2 r : string) :
  string_all (fun x => x <> c) s -> s <> (s2 ++ String c r)%string.
Proof.
  intros H E. rewrite E in H. apply string_all_app in H.
  destruct H as [_ [H _]]. congruence.
Qed.

Lemma uint_string_plain (d : Decimal.uint) :
  string_all plain (NilEmpty.string_of_uint d).
Proof.
  induction d; simpl; try exact I;
    (split; [repeat split; discriminate|assumption]).
Qed.

Lemma str_plain (x : Z) : string_all plain (str x).
Proof.
  unfold str, NilZero.string_of_int, NilZero.string_of_uint.
  destruct (Z.to_int x) as [d|d]; destruct d; simpl;
    repeat (split; [repeat split; discriminate|]);
    try exact I; apply uint_string_plain.
Qed.

Lemma str_inj (x y : Z) : str x = str y -> x = y.
Proof.
  unfold str. intros E.
  assert (N : forall z, Z.to_int z <> Decimal.Pos Decimal.Nil /\
                        Z.to_int z <> Decimal.Neg Decimal.Nil).
  { intros [|p|p]; simpl; split; try discriminate;
      intros H; injection H as H; apply (Unsigned.to_uint_nonnil p H). }
  pose proof (NilZero.isi (Z.to_int x) (proj1 (N x)) (proj2 (N x))) as Hx.
  pose proof (NilZero.isi (Z.to_int y) (proj1 (N y)) (proj2 (N y))) as Hy.
  rewrite E, Hy in Hx. injection Hx as Hx.
  rewrite <- (DecimalZ.of_to x), <- (DecimalZ.of_to y), Hx. reflexivity.
Qed.

Lemma string_all_impl (P Q : ascii -> Prop) (s : string) :
  (forall c, P c -> Q c) -> string_all P s -> string_all Q s.
Proof.
  intros HPQ. induction s as [|c s IH]; simpl; [trivial|].
  intros [Hc Hs]. split; [apply HPQ; assumption|apply IH; assumption].
Qed.

Lemma join_cons2 (sep x y : string) (l : list string) :
  join sep (x :: y :: l) = (x ++ sep ++ join sep (y :: l))%string.
Proof. reflexivity. Qed.

Lemma join_space_inj (l1 l2 : list string) :
  l1 <> [] -> l2 <> [] ->
  Forall (string_all (fun x => x <> " "%char)) l1 ->
  Forall (string_all (fun x => x <> " "%char)) l2 ->
  join " " l1 = join " " l2 -> l1 = l2.
Proof.
  revert l2. induction l1 as [|x l1 IH]; intros l2 N1 N2 F1 F2 E; [congruence|].
  destruct l2 as [|y l2]; [congruence|].
  inversion F1 as [|x' l1' Hx F1']; subst. inversion F2 as [|y' l2' Hy F2']; subst.
  destruct l1 as [|x2 l1], l2 as [|y2 l2].
  - simpl in E. subst. reflexivity.
  - exfalso. rewrite join_cons2 in E. simpl in E.
    apply (no_separator " " x y _ Hx E).
  - exfalso. rewrite join_cons2 in E. simpl in E.
    apply (no_separator " " y x _ Hy (eq_sym E)).
  - rewrite !join_cons2 in E.
    change (" " ++ join " " (x2 :: l1))%string with (String " " (join " " (x2 :: l1))) in E.
    change (" " ++ join " " (y2 :: l2))%string with (String " " (join " " (y2 :: l2))) in E.
    destruct (split_at_separator " " _ _ _ _ Hx Hy E) as [-> E'].
    f_equal. apply IH; try assumption; discriminate.
Qed.

Lemma body_no_paren (c : list Z) :
  string_all (fun x => x <> ")"%char) (join " " (map str c)).
Proof.
  induction c as [|x c IH]; [exact I|].
  assert (Hx : string_all (fun y => y <> ")"%char) (str x)).
  { apply (string_all_impl plain); [|apply str_plain]. intros ch H. apply H. }
  destruct c as [|y c]; [exact Hx|].
  cbn [map]. rewrite join_cons2. apply string_all_app. split; [assumption|].
  split; [discriminate|exact IH].
Qed.

Lemma render_cycle_eq (c : list Z) :
  render_cycle c = String "(" (join " " (map str c) ++ String ")" EmptyString).
Proof. reflexivity. Qed.

Lemma join_empty_cons (x : string) (xs : list string) :
  join "" (x :: xs) = (x ++ join "" xs)%string.
Proof.
  destruct xs as [|y xs]; [|reflexivity].
  simpl. symmetry. apply string_app_nil_r.
Qed.

(** The rendering of a list of non-empty cycles determines the list. *)
Lemma render_cycles_inj (cs1 cs2 : list (list Z)) :
  Forall (fun c => c <> []) cs1 -> Forall (fun c => c <> []) cs2 ->
  join "" (map render_cycle cs1) = join "" (map render_cycle cs2) -> cs1 = cs2.
Proof.
  revert cs2. induction cs1 as [|c1 cs1 IH]; intros [|c2 cs2] F1 F2 E.
  - reflexivity.
  - cbn [map] in E. rewrite join_empty_cons, render_cycle_eq in E. discriminate.
  - cbn [map] in E. rewrite join_empty_cons, render_cycle_eq in E. discriminate.
  - cbn [map] in E. rewrite !join_empty_cons, !render_cycle_eq in E.
    cbn [append] in E. injection E as E.
    rewrite !string_app_assoc in E. cbn [append] in E.
    destruct (split_at_separator ")" _ _ _ _ (body_no_paren c1) (body_no_paren c2) E)
      as [Eb Er].
    inversion F1 as [|c1' cs1' N1 F1']; subst. inversion F2 as [|c2' cs2' N2 F2']; subst.
    f_equal.
    + assert (Em : map str c1 = map str c2).
      { apply join_space_inj; try assumption.
        - destruct c1; [congruence|discriminate].
        - destruct c2; [congruence|discriminate].
        - apply Forall_forall. intros s Hs. apply in_map_iff in Hs.
          destruct Hs as [x [<- _]].
          apply (string_all_impl plain); [|apply str_plain]. intros ch H. apply H.
        - apply Forall_forall. intros s Hs. apply in_map_iff in Hs.
          destruct Hs as [x [<- _]].
          apply (string_all_impl plain); [|apply str_plain]. intros ch H. apply H. }
      clear - Em. revert c2 Em.
      induction c1 as [|x c1 IHc]; intros [|y c2] Em; try discriminate; [reflexivity|].
      cbn [map] in Em. injection Em as Ex Em.
      f_equal; [apply str_inj; assumption|apply IHc; assumption].
    + apply IH; assumption.
Qed.

Lemma simple_cycles_nonempty (a : permutation) :
  well_formed a = true -> Forall (fun c => c <> []) (simple_cycles a).
Proof. intros Ha. apply (valid_cycles_nonempty _ (simple_cycles_valid a Ha)). Qed.

(** Well-formed permutations with the same canonical string are the same
    table. *)
Lemma canonical_string_inj (a b : permutation) :
  well_formed a = true -> well_formed b = true ->
  canonical_string a = canonical_string b -> a = b.
Proof.
  intros Ha Hb E. unfold canonical_string in E.
  apply render_cycles_inj in E; try (apply simple_cycles_nonempty; assumption).
  pose proof (perm_simple_cycles a Ha) as Pa.
  pose proof (perm_simple_cycles b Hb) as Pb.
  rewrite E, Pb in Pa. injection Pa as Pa. symmetry. assumption.
Qed.

(** X9. On well-formed permutations [a == b] returns [True] exactly when
    the two tables are the same, and [a != b] returns the opposite. *)
Theorem eq_decides_tables (a b : permutation) :
  well_formed a = true -> well_formed b = true ->
  exists r : bool,
    evaluates (fun fuel => __eq__ fuel a b) r /\
    evaluates (fun fuel => __ne__ fuel a b) (negb r) /\
    (r = true <-> _lookup a = _lookup b).
Proof.
  intros Ha Hb. exists (String.eqb (canonical_string a) (canonical_string b)).
  split; [apply eq_evaluates; assumption|].
  split; [apply ne_evaluates; assumption|]. split.
  - intros E. apply String.eqb_eq in E.
    rewrite (canonical_string_inj a b Ha Hb E). reflexivity.
  - intros E. assert (Eab : a = b) by (destruct a, b; simpl in E; congruence).
    rewrite Eab. apply String.eqb_refl.
Qed.

Lemma eq_decides_tables_witness :
  exists r : bool,
    evaluates (fun fuel => __eq__ fuel {| _lookup := [2; 1; 3] |} {| _lookup := [2; 1] |}) r /\
    evaluates (fun fuel => __ne__ fuel {| _lookup := [2; 1; 3] |} {| _lookup := [2; 1] |})
      (negb r) /\
    (r = true <-> _lookup {| _lookup := [2; 1; 3] |} = _lookup {| _lookup := [2; 1] |}).
Proof.
  apply (eq_decides_tables {| _lookup := [2; 1; 3] |} {| _lookup := [2; 1] |}); reflexivity.
Defined.

(** ** The order is the order of the group *)

Section GroupOrder.

Variable a : permutation.
Hypothesis Ha : well_formed a = true.

Lemma eq_true_same (r : permutation) :
  well_formed r = true ->
  evaluates (fun fuel => __eq__ fuel r a) true -> r = a.
Proof.
  intros Hr He. apply (canonical_string_inj r a Hr Ha). apply String.eqb_eq.
  apply (evaluates_det _ _ _ (eq_evaluates r a Hr Ha) He).
Qed.

Lemma eq_false_differ (r : permutation) :
  well_formed r = true ->
  evaluates (fun fuel => __eq__ fuel r a) false -> r <> a.
Proof.
  intros Hr He E. subst r.
  pose proof (evaluates_det _ _ _ (eq_refl_evaluates a Ha) He). discriminate.
Qed.

(** The algorithm stops at the first product that is [a] again. *)
Lemma order_spec_first (r : permutation) (c k : Z) :
  order_spec_from a r c k ->
  forall j : nat, r = mul_iter a j -> c = Z.of_nat j ->
  exists k' : nat, k = Z.of_nat k' /\ (j <= k')%nat /\ mul_iter a k' = a /\
    forall i : nat, (j <= i < k')%nat -> mul_iter a i <> a.
Proof.
  induction 1 as [r c Heq|r r' c k Hne Hmul Hrec IH]; intros j Er Ec; subst r c.
  - exists j. split; [reflexivity|]. split; [lia|]. split.
    + apply eq_true_same; [apply mul_iter_well_formed; assumption|assumption].
    + intros i Hi. lia.
  - pose proof (mul_iter_well_formed a Ha j) as Hwj.
    assert (Er' : r' = mul_iter a (S j)).
    { rewrite mul_iter_S.
      apply (evaluates_det _ _ _ Hmul (mul_evaluates _ a Hwj Ha)). }
    destruct (IH (S j) Er') as [k' [Ek [Hk [Hfix Hmin]]]]; [lia|].
    exists k'. split; [assumption|]. split; [lia|]. split; [assumption|].
    intros i Hi. destruct (Nat.eq_dec i j) as [->|Hij].
    + apply eq_false_differ; assumption.
    + apply Hmin. lia.
Qed.

Lemma mul_iter_fixes (j : nat) :
  mul_iter a j = a <-> forall x, in_range a x -> orbit a x j = x.
Proof.
  split.
  - intros E x _. apply (image_inj a Ha).
    rewrite <- orbit_S, <- (mul_iter_image a Ha), E. reflexivity.
  - intros H. apply perm_ext; [apply mul_iter_len; assumption|].
    intros x. rewrite mul_iter_image, orbit_S by assumption.
    assert (D : in_range a x \/ ~ in_range a x) by (unfold in_range; lia).
    destruct D as [Hx|Hx].
    + rewrite H by assumption. reflexivity.
    + rewrite orbit_out by assumption. reflexivity.
Qed.

Lemma pow_identity_iff (j : Z) :
  1 <= j ->
  (_lookup (pow a j) = xrange 1 (__len__ a + 1)
   <-> forall x, in_range a x -> orbit a x (Z.to_nat j) = x).
Proof.
  intros Hj. split.
  - intros E x Hx. rewrite <- pow_image by assumption.
    rewrite image_in by (unfold in_range; rewrite pow_len by assumption; exact Hx).
    rewrite E. unfold in_range in Hx. rewrite xrange_nth by lia. lia.
  - intros H. rewrite (lookup_as_map (pow a j)), pow_len by assumption.
    rewrite <- (map_id (xrange 1 (__len__ a + 1))) at 2.
    apply map_ext_in. intros x Hx. apply xrange_In in Hx.
    rewrite pow_image by assumption. apply H. unfold in_range. lia.
Qed.

End GroupOrder.

(** X10. [order] returns the order of the permutation in the group: the
    least [k >= 1] for which [a ** k] is the identity table
    [1, 2, ..., n]. *)
Theorem order_is_group_order (a : permutation) :
  well_formed a = true ->
  exists k : Z,
    evaluates (fun fuel => order fuel a) k /\
    1 <= k /\
    (exists p, evaluates (fun fuel => __pow__ fuel a k) p /\
               _lookup p = xrange 1 (__len__ a + 1)) /\
    (forall j, 1 <= j < k ->
       exists q, evaluates (fun fuel => __pow__ fuel a j) q /\
                 _lookup q <> xrange 1 (__len__ a + 1)).
Proof.
  intros Ha. destruct (order_evaluates a Ha) as [k [Hk [Hev [r [Hr Hspec]]]]].
  assert (Er : r = mul_iter a 1)
    by (apply (evaluates_det _ _ _ Hr (mul_evaluates a a Ha Ha))).
  destruct (order_spec_first a Ha r 1 k Hspec 1%nat Er eq_refl)
    as [k' [Ek [Hk' [Hfix Hmin]]]].
  exists k. split; [assumption|]. split; [assumption|]. split.
  - exists (pow a k). split; [apply pow_evaluates; assumption|].
    apply (proj2 (pow_identity_iff a Ha k Hk)). subst k. rewrite Nat2Z.id.
    apply (proj1 (mul_iter_fixes a Ha k')). assumption.
  - intros j Hj. exists (pow a j). split; [apply pow_evaluates; [assumption|lia]|].
    intros E.
    pose proof (proj1 (pow_identity_iff a Ha j ltac:(lia)) E) as E'.
    apply (Hmin (Z.to_nat j)); [lia|].
    apply (mul_iter_fixes a Ha). assumption.
Qed.

Lemma order_is_group_order_witness :
  exists k : Z,
    evaluates (fun fuel => order fuel {| _lookup := [3; 5; 1; 6; 2; 7; 4] |}) k /\
    1 <= k /\
    (exists p, evaluates (fun fuel => __pow__ fuel {| _lookup := [3; 5; 1; 6; 2; 7; 4] |} k) p /\
               _lookup p = xrange 1 (__len__ {| _lookup := [3; 5; 1; 6; 2; 7; 4] |} + 1)) /\
    (forall j, 1 <= j < k ->
       exists q, evaluates (fun fuel => __pow__ fuel {| _lookup := [3; 5; 1; 6; 2; 7; 4] |} j) q /\
                 _lookup q <> xrange 1 (__len__ {| _lookup := [3; 5; 1; 6; 2; 7; 4] |} + 1)).
Proof.
  apply (order_is_group_order {| _lookup := [3; 5; 1; 6; 2; 7; 4] |}). reflexivity.
Defined.

(** ** Different arguments, same permutation *)

(** Two lists of cycles with the same integers and the same composed map
    are turned into the same outcome by the constructor. *)
Lemma init_ext (cs cs' : list (list Z)) :
  (cs = [] <-> cs' = []) -> (In [] cs <-> In [] cs') ->
  (forall y, In y (concat cs) <-> In y (concat cs')) ->
  (forall z, compose_cycles cs z = compose_cycles cs' z) ->
  __init__ cs = __init__ cs'.
Proof.
  intros Hnil Hemp Hin Hcomp.
  destruct (init_fails_iff cs) as [_ [_ F]]. destruct (init_fails_iff cs') as [_ [_ F']].
  assert (D : cs = [] \/ In [] cs \/ (cs <> [] /\ ~ In [] cs)).
  { destruct cs as [|c l]; [left; reflexivity|].
    destruct (in_dec (list_eq_dec Z.eq_dec) [] (c :: l)) as [H|H].
    - right. left. assumption.
    - right. right. split; [discriminate|assumption]. }
  destruct D as [H|[H|[H1 H2]]].
  - rewrite F, F' by tauto. reflexivity.
  - rewrite F, F' by tauto. reflexivity.
  - assert (A : Forall (fun c => c <> []) cs)
      by (apply Forall_forall; intros c Hc ->; contradiction).
    assert (A' : Forall (fun c => c <> []) cs')
      by (apply Forall_forall; intros c Hc ->; tauto).
    assert (N' : cs' <> []) by tauto.
    rewrite (init_ok cs H1 A), (init_ok cs' N' A'). do 2 f_equal.
    unfold table_of.
    assert (Es : size_of cs = size_of cs').
    { apply (is_max_unique (concat cs')); [|apply size_of_spec; assumption].
      destruct (size_of_spec cs H1 A) as [I L]. split.
      - apply Hin. assumption.
      - intros y Hy. apply L. apply Hin. assumption. }
    rewrite Es. apply map_ext. assumption.
Qed.

Lemma successor_at (c : list Z) (i : nat) (d : Z) :
  NoDup c -> (i < length c)%nat ->
  cyclic_successor c (nth i c d) = nth (succ_pos (length c) i) c d.
Proof.
  intros Hnd Hi. unfold cyclic_successor.
  rewrite index_nth_NoDup by assumption.
  apply nth_indep. apply succ_pos_lt. assumption.
Qed.

(** Starting a cycle at its second element does not change the map. *)
Lemma successor_rotate (x : Z) (r : list Z) (z : Z) :
  NoDup (x :: r) -> cyclic_successor (r ++ [x]) z = cyclic_successor (x :: r) z.
Proof.
  intros Hnd.
  assert (Hrot : NoDup (r ++ [x])).
  { apply (Permutation_NoDup (l := x :: r)); [|assumption].
    change (x :: r) with ([x] ++ r). apply Permutation_app_comm. }
  assert (Hlen : length (r ++ [x]) = S (length r)) by (rewrite length_app; simpl; lia).
  destruct (in_dec Z.eq_dec z (x :: r)) as [Hin|Hin].
  - destruct (In_nth _ _ 0 Hin) as [i [Hi Ez]]. cbn [length] in Hi. subst z.
    rewrite (successor_at (x :: r) i 0 Hnd) by (cbn [length]; lia). cbn [length].
    destruct i as [|i].
    + change (nth 0 (x :: r) 0) with x.
      replace x with (nth (length r) (r ++ [x]) 0) at 2
        by (rewrite app_nth2, Nat.sub_diag by lia; reflexivity).
      rewrite (successor_at (r ++ [x]) (length r) 0 Hrot) by lia.
      rewrite Hlen, succ_pos_last by reflexivity.
      destruct r as [|y r]; [reflexivity|].
      rewrite succ_pos_inner by (cbn [length]; lia). reflexivity.
    + change (nth (S i) (x :: r) 0) with (nth i r 0).
      replace (nth i r 0) with (nth i (r ++ [x]) 0) by (apply app_nth1; lia).
      rewrite (successor_at (r ++ [x]) i 0 Hrot) by lia.
      rewrite Hlen, (succ_pos_inner (S (length r)) i) by lia.
      destruct (Nat.eq_dec (S i) (length r)) as [E|E].
      * rewrite (succ_pos_last (S (length r)) (S i)) by lia.
        rewrite app_nth2, E, Nat.sub_diag by lia. reflexivity.
      * rewrite (succ_pos_inner (S (length r)) (S i)) by lia.
        rewrite app_nth1 by lia. reflexivity.
  - rewrite (cyclic_successor_notin (x :: r) z Hin).
    apply cyclic_successor_notin. intros H. apply Hin.
    apply in_app_or in H. destruct H as [H|[H|[]]]; [right; assumption|left; assumption].
Qed.

(** X11. A cycle of distinct integers can be written from its second
    element on, the first one coming last, without changing what the
    constructor returns: [perm((1, 2, 3))] is [perm((2, 3, 1))]. *)
Theorem init_rotate (before after : list (list Z)) (x : Z) (r : list Z) :
  NoDup (x :: r) ->
  __init__ (before ++ (r ++ [x]) :: after) = __init__ (before ++ (x :: r) :: after).
Proof.
  intros Hnd. apply init_ext.
  - split; intros H; destruct before; discriminate.
  - rewrite !in_app_iff. cbn [In]. split; intros [H|[H|H]]; try tauto.
    + destruct r; discriminate.
    + discriminate.
  - intros y. rewrite !concat_app. cbn [concat]. rewrite !in_app_iff. cbn [In].
    tauto.
  - intros z. rewrite !compose_cycles_app.
    change (compose_cycles ((r ++ [x]) :: after) z)
      with (cyclic_successor (r ++ [x]) (compose_cycles after z)).
    change (compose_cycles ((x :: r) :: after) z)
      with (cyclic_successor (x :: r) (compose_cycles after z)).
    rewrite successor_rotate by assumption. reflexivity.
Qed.

Lemma init_rotate_witness :
  __init__ ([[4; 5]] ++ ([2; 3] ++ [1]) :: [[6]])
  = __init__ ([[4; 5]] ++ (1 :: [2; 3]) :: [[6]]).
Proof.
  apply (init_rotate [[4; 5]] [[6]] 1 [2; 3]).
  repeat constructor; simpl; intuition discriminate.
Defined.

Lemma compose_disjoint (cs : list (list Z)) (c : list Z) (x : Z) :
  NoDup (concat cs) -> In c cs -> In x c ->
  compose_cycles cs x = cyclic_successor c x.
Proof.
  induction cs as [|c0 cs IH]; intros Hnd Hc Hx; [contradiction|].
  cbn [concat] in Hnd.
  change (compose_cycles (c0 :: cs) x) with (cyclic_successor c0 (compose_cycles cs x)).
  destruct (in_dec Z.eq_dec x (concat cs)) as [Hin|Hin].
  - assert (Hx0 : ~ In x c0)
      by (intros H; apply (NoDup_app_disjoint _ _ _ Hnd H Hin)).
    destruct Hc as [->|Hc]; [contradiction|].
    rewrite (IH (NoDup_app_remove_l _ _ Hnd) Hc Hx).
    apply cyclic_successor_notin. intros H.
    apply (NoDup_app_disjoint _ _ _ Hnd H).
    apply in_concat. exists c. split; [assumption|].
    apply cyclic_successor_In. assumption.
  - rewrite compose_cycles_notin by assumption.
    destruct Hc as [->|Hc]; [reflexivity|].
    exfalso. apply Hin. apply in_concat. exists c. split; assumption.
Qed.

Lemma Permutation_concat_cycles (cs cs' : list (list Z)) :
  Permutation cs cs' -> Permutation (concat cs) (concat cs').
Proof.
  induction 1 as [|c l l' _ IH|c1 c2 l|l1 l2 l3 _ IH1 _ IH2]; cbn [concat].
  - constructor.
  - apply Permutation_app_head. assumption.
  - rewrite !app_assoc. apply Permutation_app_tail. apply Permutation_app_comm.
  - apply (perm_trans IH1 IH2).
Qed.

(** X12. Cycles that share no integer can be given to the constructor in
    any order. *)
Theorem init_disjoint_any_order (cs cs' : list (list Z)) :
  NoDup (concat cs) -> Permutation cs cs' -> __init__ cs = __init__ cs'.
Proof.
  intros Hnd HP.
  pose proof (Permutation_concat_cycles cs cs' HP) as HPc.
  pose proof (Permutation_NoDup HPc Hnd) as Hnd'.
  apply init_ext.
  - split; intros ->.
    + apply Permutation_nil. assumption.
    + apply Permutation_nil. apply Permutation_sym. assumption.
  - split; intros H.
    + apply (Permutation_in _ HP H).
    + apply (Permutation_in _ (Permutation_sym HP) H).
  - intros y. split; intros H.
    + apply (Permutation_in _ HPc H).
    + apply (Permutation_in _ (Permutation_sym HPc) H).
  - intros z. destruct (in_dec Z.eq_dec z (concat cs)) as [Hin|Hin].
    + apply in_concat in Hin. destruct Hin as [c [Hc Hz]].
      rewrite (compose_disjoint cs c z Hnd Hc Hz).
      rewrite (compose_disjoint cs' c z Hnd' (Permutation_in _ HP Hc) Hz). reflexivity.
    + rewrite !compose_cycles_notin; [reflexivity| |assumption].
      intros H. apply Hin. apply (Permutation_in _ (Permutation_sym HPc) H).
Qed.

Lemma init_disjoint_any_order_witness :
  __init__ [[1; 2]; [5; 4]; [3; 6]] = __init__ [[3; 6]; [1; 2]; [5; 4]].
Proof.
  apply (init_disjoint_any_order [[1; 2]; [5; 4]; [3; 6]] [[3; 6]; [1; 2]; [5; 4]]).
  - repeat constructor; simpl; intuition discriminate.
  - change [[1; 2]; [5; 4]; [3; 6]] with ([[1; 2]; [5; 4]] ++ [[3; 6]]).
    change [[3; 6]; [1; 2]; [5; 4]] with ([[3; 6]] ++ [[1; 2]; [5; 4]]).
    apply Permutation_app_comm.
Defined.

(** ** The identity *)

Lemma singleton_cycle_fixes (m x : Z) : compose_cycles [[m]] x = x.
Proof.
  change (compose_cycles [[m]] x) with (cyclic_successor [m] x).
  unfold cyclic_successor. cbn [index].
  destruct (Z.eqb_spec m x) as [->|_]; reflexivity.
Qed.

Lemma singleton_valid (m : Z) : 1 <= m -> valid_cycles [[m]] = true.
Proof.
  intros H. unfold valid_cycles, valid_cycle. cbn.
  destruct (Z.leb_spec 1 m); [reflexivity|lia].
Qed.

Lemma singleton_size (m : Z) : size_of [[m]] = m.
Proof. reflexivity. Qed.

(** X13. [perm((m,))] is the identity of size [m]: its table is
    [1, 2, ..., m], and multiplying a well-formed permutation of length at
    least [m] by it, on either side, gives a permutation equal to the
    original one. *)
Theorem singleton_is_identity (a : permutation) (m : Z) :
  well_formed a = true -> 1 <= m <= __len__ a ->
  exists e ae ea : permutation,
    perm [[m]] = Ok e /\
    _lookup e = xrange 1 (m + 1) /\
    evaluates (fun fuel => __mul__ fuel a e) ae /\
    evaluates (fun fuel => __mul__ fuel e a) ea /\
    evaluates (fun fuel => __eq__ fuel ae a) true /\
    evaluates (fun fuel => __eq__ fuel ea a) true.
Proof.
  intros Ha Hm. pose proof (singleton_valid m (proj1 Hm)) as Hv.
  pose proof (table_of_well_formed [[m]] Hv) as He.
  set (e := {| _lookup := table_of [[m]] |}) in *.
  assert (Ie : forall x, image e x = x)
    by (intros x; unfold e; rewrite table_image by assumption;
        apply singleton_cycle_fixes).
  assert (Le : __len__ e = m)
    by (unfold e; rewrite table_len by assumption; apply singleton_size).
  exists e, (mul a e), (mul e a).
  split; [apply perm_valid; assumption|]. split.
  - unfold e. simpl. unfold table_of. rewrite singleton_size.
    rewrite <- (map_id (xrange 1 (m + 1))) at 2.
    apply map_ext. apply singleton_cycle_fixes.
  - split; [apply mul_evaluates; assumption|].
    split; [apply mul_evaluates; assumption|].
    assert (E1 : mul a e = a).
    { apply perm_ext.
      - rewrite mul_len, Le by assumption. lia.
      - intros x. rewrite mul_image, Ie by assumption. reflexivity. }
    assert (E2 : mul e a = a).
    { apply perm_ext.
      - rewrite mul_len, Le by assumption. lia.
      - intros x. rewrite mul_image, Ie by assumption. reflexivity. }
    rewrite E1, E2. split; apply eq_refl_evaluates; assumption.
Qed.

Lemma singleton_is_identity_witness :
  exists e ae ea : permutation,
    perm [[2]] = Ok e /\
    _lookup e = xrange 1 (2 + 1) /\
    evaluates (fun fuel => __mul__ fuel {| _lookup := [2; 3; 1] |} e) ae /\
    evaluates (fun fuel => __mul__ fuel e {| _lookup := [2; 3; 1] |}) ea /\
    evaluates (fun fuel => __eq__ fuel ae {| _lookup := [2; 3; 1] |}) true /\
    evaluates (fun fuel => __eq__ fuel ea {| _lookup := [2; 3; 1] |}) true.
Proof.
  apply (singleton_is_identity {| _lookup := [2; 3; 1] |} 2).
  - reflexivity.
  - vm_compute. split; discriminate.
Defined.

(** ** Tables that are no bijection *)

Lemma follow_never_returns (a : permutation) :
  (forall y, In y (_lookup a) -> in_range a y /\ y <> 1) ->
  forall (fuel : nat) (cycle : list Z) (nd : list bool) (y : Z),
    length nd = length (_lookup a) -> in_range a y -> y <> 1 ->
    follow fuel a 1 cycle nd y = OutOfFuel.
Proof.
  intros Hall. induction fuel as [|fuel IH]; intros cycle nd y Hl Hy Hne; [reflexivity|].
  cbn [follow]. destruct (Z.eqb_spec y 1) as [|_]; [contradiction|]. cbn [negb].
  assert (Hs : setitem nd (y - 1) false = Ok (set_nth nd (Z.to_nat (y - 1)) false)).
  { unfold in_range, __len__, len in Hy.
    replace (y - 1) with (Z.of_nat (Z.to_nat (y - 1))) at 1 by lia.
    apply setitem_nonneg. lia. }
  rewrite Hs. cbn [bind]. rewrite (call_in_range a y Hy). cbn [bind].
  assert (Hin : In (image a y) (_lookup a)).
  { rewrite image_in by assumption. apply nth_In.
    unfold in_range, __len__, len in Hy. lia. }
  destruct (Hall _ Hin) as [Hr Hn1].
  apply IH; [rewrite set_nth_length|  |]; assumption.
Qed.

(** X14. The constructor accepts cycles that make no bijection, such as
    [(1, 2, 2)].  On a non-empty table whose entries are all within
    [1 .. n] and none of which is 1, the walk that [_getcycles] starts at
    point 1 never comes back: with any amount of fuel [_getcycles],
    [str] and [*] run out of it. *)
Theorem getcycles_never_returns (a : permutation) (simplify : bool) (fuel : nat) :
  (1 <=? __len__ a)
  && forallb (fun y => (1 <=? y) && (y <=? __len__ a) && negb (y =? 1)) (_lookup a)
  = true ->
  _getcycles fuel a simplify = OutOfFuel /\
  __str__ fuel a = OutOfFuel /\
  __mul__ fuel a a = OutOfFuel.
Proof.
  intros H. apply andb_true_iff in H. destruct H as [Hlen Hall].
  apply Z.leb_le in Hlen. rewrite forallb_forall in Hall.
  assert (Hall' : forall y, In y (_lookup a) -> in_range a y /\ y <> 1).
  { intros y Hy. specialize (Hall y Hy).
    apply andb_true_iff in Hall. destruct Hall as [Hr Hn].
    apply andb_true_iff in Hr. destruct Hr as [H1 H2].
    apply Z.leb_le in H1, H2. apply negb_true_iff, Z.eqb_neq in Hn.
    split; [split|]; assumption. }
  assert (G : forall s, _getcycles fuel a s = OutOfFuel).
  { intros s. unfold _getcycles. destruct fuel as [|fuel]; [reflexivity|].
    cbn [getcycles_loop].
    assert (Hn : exists n', length (_lookup a) = S n').
    { unfold __len__, len in Hlen. destruct (length (_lookup a)) as [|n'];
        [simpl in Hlen; lia|exists n'; reflexivity]. }
    destruct Hn as [n' En]. rewrite En.
    cbn [repeat any existsb orb index Bool.eqb].
    change (Z.of_nat 0 + 1) with 1. change (1 - 1) with (Z.of_nat 0).
    rewrite setitem_nonneg by (cbn [length]; lia). cbn [bind].
    assert (H1 : in_range a 1) by (unfold in_range; lia).
    rewrite (call_in_range a 1 H1). cbn [bind].
    assert (Hin : In (image a 1) (_lookup a)).
    { rewrite image_in by assumption. apply nth_In. rewrite En. lia. }
    destruct (Hall' _ Hin) as [Hr Hn1].
    rewrite follow_never_returns; try assumption; [reflexivity|].
    rewrite set_nth_length. cbn [length]. rewrite repeat_length, En. reflexivity. }
  split; [apply G|]. split.
  - unfold __str__. rewrite G. reflexivity.
  - unfold __mul__. rewrite G. reflexivity.
Qed.

Lemma getcycles_never_returns_witness :
  _getcycles 100 {| _lookup := [2; 2] |} true = OutOfFuel /\
  __str__ 100 {| _lookup := [2; 2] |} = OutOfFuel /\
  __mul__ 100 {| _lookup := [2; 2] |} {| _lookup := [2; 2] |} = OutOfFuel.
Proof. apply (getcycles_never_returns {| _lookup := [2; 2] |} true 100). reflexivity. Defined.

(** X15. Whatever the cycles share or repeat, when they are non-empty and
    hold positive integers only, every entry of the table lies within
    [1 .. n], so that applying the permutation to a point of [1 .. n]
    gives a point of [1 .. n] again. *)
Theorem init_entries_in_range (cycles : list (list Z)) :
  cycles <> [] -> ~ In [] cycles ->
  (forall y, In y (concat cycles) -> 1 <= y) ->
  exists p : permutation,
    __init__ cycles = Ok p /\
    1 <= __len__ p /\
    forall x, 1 <= x <= __len__ p ->
      exists v, __call__ p x = Ok v /\ 1 <= v <= __len__ p.
Proof.
  intros Hne Hin Hpos.
  assert (Hall : Forall (fun c => c <> []) cycles)
    by (apply Forall_forall; intros c Hc ->; contradiction).
  destruct (size_of_spec cycles Hne Hall) as [Hs Hle].
  pose proof (Hpos _ Hs) as H1.
  assert (Hl : __len__ {| _lookup := table_of cycles |} = size_of cycles)
    by (unfold __len__, len; simpl; rewrite table_of_length; lia).
  exists {| _lookup := table_of cycles |}.
  split; [apply init_ok; assumption|]. split; [lia|].
  intros x Hx. exists (compose_cycles cycles x). split.
  - rewrite call_in_range by exact Hx.
    rewrite image_in by exact Hx. simpl.
    rewrite table_of_nth by lia. reflexivity.
  - rewrite Hl in *.
    apply (compose_cycles_closed (fun y => 1 <= y <= size_of cycles)); [|assumption].
    intros y Hy. split; [apply Hpos|apply Hle]; assumption.
Qed.

Lemma init_entries_in_range_witness :
  exists p : permutation,
    __init__ [[1; 2; 2]; [3; 1; 3]] = Ok p /\
    1 <= __len__ p /\
    forall x, 1 <= x <= __len__ p ->
      exists v, __call__ p x = Ok v /\ 1 <= v <= __len__ p.
Proof.
  apply (init_entries_in_range [[1; 2; 2]; [3; 1; 3]]).
  - discriminate.
  - intros [H|[H|[]]]; discriminate.
  - intros y [H|[H|[H|[H|[H|[H|[]]]]]]]; subst; lia.
Defined.
